(** * Poker tournament tracker: the HTTP handlers of [main.py] over a relational store

    The handlers of [main.py] are embedded as functions from a database
    state to a response and a new database state.  Tables are lists of rows
    (bags, in insertion order); every SQL statement the handlers send is a
    function on those lists; an exception raised by a handler or by the
    database is a constructor of [response].  The connection of [get_conn]
    is taken to be configured and is opened in autocommit mode, so every
    statement takes effect on its own. *)

From Stdlib Require Import ZArith String Ascii DecimalString.
From stdpp Require Import base option numbers list sorting strings.

Local Open Scope Z_scope.
Set Warnings "-register-all".

(** ** Text: Python [str] and PostgreSQL [text]

    Strings are sequences of characters, one [ascii] for each code point
    below U+0100; text with other characters is outside the model.  [lower]
    is PostgreSQL's [lower()] under a UTF-8 ctype on these characters: it
    folds [A]..[Z] and the capital letters U+00C0..U+00DE (U+00D7, the
    multiplication sign, is no letter). *)

Definition lower_char (c : ascii) : ascii :=
  let n := N_of_ascii c in
  if (((65 <=? n) && (n <=? 90)) ||
      ((192 <=? n) && (n <=? 222) && negb (n =? 215)))%N
  then ascii_of_N (n + 32) else c.

Fixpoint lower (s : string) : string :=
  match s with
  | EmptyString => EmptyString
  | String c s' => String (lower_char c) (lower s')
  end.

Fixpoint has_char (c : ascii) (s : string) : bool :=
  match s with
  | EmptyString => false
  | String c' s' => bool_decide (c' = c) || has_char c s'
  end.

(** The driver refuses a text parameter that holds U+0000: [cur.execute]
    raises before the statement reaches the database. *)
Definition has_nul (s : string) : bool := has_char "000"%char s.

Definition no_nul (s : string) : Prop := has_nul s = false.

Global Instance no_nul_dec s : Decision (no_nul s).
Proof. unfold no_nul. apply _. Defined.

(** Python's [str(n)] for an [int], as used by the f-strings. *)
Definition str (n : Z) : string := NilZero.string_of_int (Z.to_int n).

(** Truth value of an optional string: [if q:] is false for [None] and for
    the empty string. *)
Definition truthy (q : option string) : bool :=
  match q with
  | Some (String _ _) => true
  | _ => false
  end.

(** The f-string [f"%{q}%"]. *)
Definition like_pattern (q : string) : string := "%" +:+ q +:+ "%".

(** *** The [LIKE] operator

    A pattern is read left to right, character by character: a backslash
    makes the next character literal, [%] stands for any sequence of
    characters, [_] for any one character.  A pattern that ends in a lone
    backslash is an error of the database. *)

Inductive like_token : Type :=
  | AnySeq
  | AnyChar
  | Lit (c : ascii).

Fixpoint like_tokens (p : string) : option (list like_token) :=
  match p with
  | EmptyString => Some []
  | String c p' =>
      if decide (c = "\"%char) then
        match p' with
        | EmptyString => None
        | String c' p'' => cons (Lit c') <$> like_tokens p''
        end
      else if decide (c = "%"%char) then cons AnySeq <$> like_tokens p'
      else if decide (c = "_"%char) then cons AnyChar <$> like_tokens p'
      else cons (Lit c) <$> like_tokens p'
  end.

Fixpoint like_match (ts : list like_token) (s : string) : bool :=
  match ts with
  | [] => match s with EmptyString => true | String _ _ => false end
  | Lit c :: ts' =>
      match s with
      | EmptyString => false
      | String c' s' => bool_decide (c = c') && like_match ts' s'
      end
  | AnyChar :: ts' =>
      match s with
      | EmptyString => false
      | String _ s' => like_match ts' s'
      end
  | AnySeq :: ts' =>
      (fix skip (s : string) : bool :=
         like_match ts' s ||
         match s with
         | EmptyString => false
         | String _ s' => skip s'
         end) s
  end.

(** [lower(column) LIKE lower(pattern)] for one pattern, as a predicate on
    the column's values; [None] when the database rejects the pattern. *)
Definition lower_like (pattern : string) : option (string → bool) :=
  (λ ts name, like_match ts (lower name)) <$> like_tokens (lower pattern).

(** ** JSON bodies and responses *)

Definition datetime : Type := Z.

Inductive json : Type :=
  | JNull
  | JInt (n : Z)
  | JStr (s : string)
  | JDateTime (t : datetime)  (* the text [t.isoformat()] *)
  | JList (items : list json)
  | JObj (fields : list (string * json)).

(** [x.isoformat() if x else None] *)
Definition isoformat_or_none (t : option datetime) : json :=
  match t with
  | Some t => JDateTime t
  | None => JNull
  end.

Definition str_or_none (s : option string) : json :=
  match s with
  | Some s => JStr s
  | None => JNull
  end.

Inductive response : Type :=
  | Ok (body : json)                                  (* 200 *)
  | HTTPException (status_code : Z) (detail : string)
  | RequestValidationError                            (* 422, raised by [Query(ge=, le=)] *)
  | InternalServerError.                              (* an exception of the database driver *)

(** ** Request models *)

Module GameCreate.
Record t : Type := { game_title : string; start_time : datetime; venue_id : Z }.
End GameCreate.

Module ResultCreate.
Record t : Type :=
  { finish_rank : Z; player_id : Z; points : Z; kos : Z;
    eliminated_by_player_id : option Z }.
End ResultCreate.

Module PlayerCreate.
Record t : Type := { display_name : string; avatar_url : option string }.
End PlayerCreate.

Module VenueCreate.
Record t : Type :=
  { venue_name : string; address : option string; city : string; state : string }.
End VenueCreate.

(** ** Tables

    Modelled from the spec: the schema is not part of the sources.  The
    columns are those the statements of [main.py] name; keys, defaults and
    references follow the spec's data model: surrogate keys generated on
    insert, [created_at] set on insert, results composite-unique on
    [(game_id, player_id)] and referencing a game and two players. *)

Module Venue.
Record row : Type :=
  { venue_id : Z; venue_name : string; address : option string;
    city : string; state : string; created_at : option datetime }.
End Venue.

Module Player.
Record row : Type :=
  { player_id : Z; display_name : string; avatar_url : option string;
    created_at : option datetime }.
End Player.

Module Game.
Record row : Type :=
  { game_id : Z; game_title : string; start_time : option datetime;
    status : string; venue_id : Z }.
End Game.

Module Result.
Record row : Type :=
  { game_id : Z; finish_rank : Z; player_id : Z; points : Z; kos : Z;
    eliminated_by_player_id : option Z }.
End Result.

Record db : Type :=
  { venues : list Venue.row;
    players : list Player.row;
    games : list Game.row;
    results : list Result.row;
    venues_seq : Z;   (* next value of the key sequences *)
    players_seq : Z;
    games_seq : Z }.

Definition empty_db : db :=
  {| venues := []; players := []; games := []; results := [];
     venues_seq := 1; players_seq := 1; games_seq := 1 |}.

(** [cur.fetchone()] *)
Definition fetchone {A : Type} (rows : list A) : option A := head rows.

(** [LIMIT n] *)
Definition sql_limit {A : Type} (n : Z) (rows : list A) : list A :=
  take (Z.to_nat n) rows.

(** [ORDER BY k DESC]: larger first, NULLs before everything. *)
Definition desc_order (a b : option Z) : Prop :=
  match a, b with
  | None, _ => True
  | Some _, None => False
  | Some x, Some y => y ≤ x
  end.

Global Instance desc_order_dec a b : Decision (desc_order a b).
Proof. destruct a, b; simpl; apply _. Defined.

Definition by_desc {A : Type} (k : A → option Z) : relation A :=
  λ x y, desc_order (k x) (k y).

Definition by_asc {A : Type} (k : A → Z) : relation A :=
  λ x y, k x ≤ k y.

Global Instance by_desc_dec {A : Type} (k : A → option Z) : RelDecision (by_desc k).
Proof. intros x y. unfold by_desc. apply _. Defined.

Global Instance by_asc_dec {A : Type} (k : A → Z) : RelDecision (by_asc k).
Proof. intros x y. unfold by_asc. apply _. Defined.

(** The order of the rows that tie is left open by SQL; the model keeps
    them in the order of the table, which a stable insertion sort gives.
    The listings are specified below up to that choice: as some ordering of
    the selected rows that is sorted by the key. *)
Fixpoint insert_by {A : Type} (R : relation A) `{!RelDecision R} (x : A)
    (sorted : list A) : list A :=
  match sorted with
  | [] => [x]
  | y :: sorted' =>
      if decide (R x y) then x :: y :: sorted' else y :: insert_by R x sorted'
  end.

Fixpoint stable_sort {A : Type} (R : relation A) `{!RelDecision R}
    (rows : list A) : list A :=
  match rows with
  | [] => []
  | x :: rows' => insert_by R x (stable_sort R rows')
  end.

Definition order_by_desc {A : Type} (k : A → option Z) (rows : list A) : list A :=
  stable_sort (by_desc k) rows.

(** [ORDER BY k ASC] on a column without NULLs. *)
Definition order_by_asc {A : Type} (k : A → Z) (rows : list A) : list A :=
  stable_sort (by_asc k) rows.

(** A [LEFT JOIN] keeps the left row, with NULLs, when nothing matches. *)
Definition left_join {A : Type} (matches : list A) : list (option A) :=
  match matches with
  | [] => [None]
  | _ => Some <$> matches
  end.

(** The [WHERE lower(name) LIKE lower(%(q)s)] clause, which the list
    handlers add under [if q:] only, with [f"%{q}%"] as the parameter;
    [None] when [cur.execute] raises: the driver refuses a parameter that
    holds U+0000, the database a pattern it cannot read. *)
Definition where_name_like (q : option string) : option (string → bool) :=
  match q with
  | Some s =>
      if truthy q then
        if has_nul (like_pattern s) then None else lower_like (like_pattern s)
      else Some (λ _, true)
  | None => Some (λ _, true)
  end.

(** ** Game resource *)

Definition game_summary (row : Game.row * Venue.row) : json :=
  let (g, v) := row in
  JObj [("game_id", JInt (Game.game_id g));
        ("game_title", JStr (Game.game_title g));
        ("start_time", isoformat_or_none (Game.start_time g));
        ("status", JStr (Game.status g));
        ("venue_name", JStr (Venue.venue_name v))].

(** [FROM games g JOIN venues v ON v.venue_id = g.venue_id] *)
Definition games_join_venues (d : db) : list (Game.row * Venue.row) :=
  g ← games d;
  v ← filter (λ v, Venue.venue_id v = Game.venue_id g) (venues d);
  [(g, v)].

Definition list_games (limit : option Z) (venue : option string) (d : db)
  : response * db :=
  let limit := default 20 limit in
  if bool_decide (1 ≤ limit ≤ 200) then
    match where_name_like venue with
    | Some like =>
        let rows :=
          sql_limit limit
            (order_by_desc (λ row, Game.start_time (fst row))
               (filter (λ row, like (Venue.venue_name (snd row)))
                  (games_join_venues d))) in
        (Ok (JList (game_summary <$> rows)), d)
    | None => (InternalServerError, d)
    end
  else (RequestValidationError, d).

(** One row of the leaderboard query:
    [finish_rank, player, points, kos, eliminated_by]. *)
Definition leaderboard_row : Type := Z * string * Z * Z * option string.

(** [results_sql] of [get_game], which is [sql] of [game_results]. *)
Definition select_leaderboard (game_id : Z) (d : db) : list leaderboard_row :=
  order_by_asc (λ row : leaderboard_row, row.1.1.1.1)
    (r ← filter (λ r, Result.game_id r = game_id) (results d);
     p ← filter (λ p, Player.player_id p = Result.player_id r) (players d);
     eb ← left_join
            (filter (λ eb, Some (Player.player_id eb) = Result.eliminated_by_player_id r)
               (players d));
     [(Result.finish_rank r, Player.display_name p, Result.points r, Result.kos r,
       Player.display_name <$> (eb : option Player.row))]).

Definition leaderboard_entry (row : leaderboard_row) : json :=
  let '(finish_rank, player, points, kos, eliminated_by) := row in
  JObj [("finish_rank", JInt finish_rank);
        ("player", JStr player);
        ("points", JInt points);
        ("kos", JInt kos);
        ("eliminated_by", str_or_none eliminated_by)].

Definition get_game (game_id : Z) (d : db) : response * db :=
  match fetchone (filter (λ row, Game.game_id (fst row) = game_id) (games_join_venues d)) with
  | None => (HTTPException 404 ("Game " +:+ str game_id +:+ " not found"), d)
  | Some (g, v) =>
      let results_rows := select_leaderboard game_id d in
      (Ok (JObj [("game_id", JInt (Game.game_id g));
                 ("game_title", JStr (Game.game_title g));
                 ("start_time", isoformat_or_none (Game.start_time g));
                 ("status", JStr (Game.status g));
                 ("venue", JObj [("venue_id", JInt (Venue.venue_id v));
                                 ("venue_name", JStr (Venue.venue_name v))]);
                 ("results", JList (leaderboard_entry <$> results_rows))]), d)
  end.

Definition game_results (game_id : Z) (d : db) : response * db :=
  (Ok (JList (leaderboard_entry <$> select_leaderboard game_id d)), d).

(** [sql_insert_game ... returning ...]: the key comes from the sequence.
    The handlers run an insert only with text the driver accepts. *)
Definition insert_game (game_title : string) (start_time : datetime) (status : string)
    (venue_id : Z) (d : db) : Game.row * db :=
  let row := {| Game.game_id := games_seq d; Game.game_title := game_title;
                Game.start_time := Some start_time; Game.status := status;
                Game.venue_id := venue_id |} in
  (row, {| venues := venues d; players := players d; games := games d ++ [row];
           results := results d; venues_seq := venues_seq d;
           players_seq := players_seq d; games_seq := games_seq d + 1 |}).

Definition create_game (game : GameCreate.t) (d : db) : response * db :=
  match fetchone (filter (λ v, Venue.venue_id v = GameCreate.venue_id game) (venues d)) with
  | None =>
      (HTTPException 400
         ("venue_id " +:+ str (GameCreate.venue_id game) +:+ " does not exist"), d)
  | Some v =>
      let venue_id := Venue.venue_id v in
      let venue_name := Venue.venue_name v in
      if has_nul (GameCreate.game_title game) then (InternalServerError, d)
      else
        let (row, d') :=
          insert_game (GameCreate.game_title game) (GameCreate.start_time game)
            "scheduled" venue_id d in
        (Ok (JObj [("game_id", JInt (Game.game_id row));
                   ("game_title", JStr (Game.game_title row));
                   ("start_time", isoformat_or_none (Game.start_time row));
                   ("status", JStr (Game.status row));
                   ("venue", JObj [("venue_id", JInt (Game.venue_id row));
                                   ("venue_name", JStr venue_name)])]), d')
  end.

(** *** Results *)

(** The parameters of the insert statement for one submitted row. *)
Definition result_values (game_id : Z) (r : ResultCreate.t) : Result.row :=
  {| Result.game_id := game_id;
     Result.finish_rank := ResultCreate.finish_rank r;
     Result.player_id := ResultCreate.player_id r;
     Result.points := ResultCreate.points r;
     Result.kos := ResultCreate.kos r;
     Result.eliminated_by_player_id := ResultCreate.eliminated_by_player_id r |}.

(** Modelled from the spec: the foreign keys of the results table, whose
    declaration is not part of the sources.  A row references a game and a
    player that exist and, when it names one, an eliminating player that
    exists. *)
Definition references_ok (new : Result.row) (d : db) : Prop :=
  Result.game_id new ∈ Game.game_id <$> games d ∧
  Result.player_id new ∈ Player.player_id <$> players d ∧
  from_option (λ e, e ∈ Player.player_id <$> players d) True
    (Result.eliminated_by_player_id new).

Global Instance references_ok_dec new d : Decision (references_ok new d).
Proof.
  unfold references_ok.
  destruct (Result.eliminated_by_player_id new); simpl; apply _.
Defined.

(** [ON CONFLICT (game_id, player_id)] *)
Definition conflicts (new old : Result.row) : Prop :=
  Result.game_id old = Result.game_id new ∧ Result.player_id old = Result.player_id new.

Global Instance conflicts_dec new old : Decision (conflicts new old).
Proof. unfold conflicts. apply _. Defined.

(** [DO UPDATE SET finish_rank = excluded.finish_rank, ...] *)
Definition do_update (excluded old : Result.row) : Result.row :=
  {| Result.game_id := Result.game_id old;
     Result.finish_rank := Result.finish_rank excluded;
     Result.player_id := Result.player_id old;
     Result.points := Result.points excluded;
     Result.kos := Result.kos excluded;
     Result.eliminated_by_player_id := Result.eliminated_by_player_id excluded |}.

Definition with_results (d : db) (rows : list Result.row) : db :=
  {| venues := venues d; players := players d; games := games d; results := rows;
     venues_seq := venues_seq d; players_seq := players_seq d;
     games_seq := games_seq d |}.

(** The effect of the upsert statement on the rows of the table. *)
Definition upsert_rows (new : Result.row) (rows : list Result.row) : list Result.row :=
  if decide (Exists (conflicts new) rows)
  then (λ old, if decide (conflicts new old) then do_update new old else old) <$> rows
  else rows ++ [new].

(** The upsert statement of [add_results]; [None] when the database raises
    (a broken reference), in which case the statement changes nothing. *)
Definition upsert_result (new : Result.row) (d : db) : option db :=
  if decide (references_ok new d)
  then Some (with_results d (upsert_rows new (results d)))
  else None.

(** The [for r in results:] loop.  The connection is in autocommit mode, so
    the rows written before a failing statement stay written. *)
Fixpoint insert_results (game_id : Z) (rs : list ResultCreate.t) (d : db)
  : option unit * db :=
  match rs with
  | [] => (Some (), d)
  | r :: rs' =>
      match upsert_result (result_values game_id r) d with
      | Some d' => insert_results game_id rs' d'
      | None => (None, d)
      end
  end.

Definition add_results (game_id : Z) (rs : list ResultCreate.t) (d : db)
  : response * db :=
  match fetchone (filter (λ g, Game.game_id g = game_id) (games d)) with
  | None => (Ok (JObj [("error", JStr ("Game " +:+ str game_id +:+ " not found"))]), d)
  | Some _ =>
      match insert_results game_id rs d with
      | (Some _, d') =>
          (Ok (JObj [("game_id", JInt game_id);
                     ("inserted_results", JInt (Z.of_nat (length rs)))]), d')
      | (None, d') => (InternalServerError, d')
      end
  end.

(** ** Player resource *)

Definition player_json (p : Player.row) : json :=
  JObj [("player_id", JInt (Player.player_id p));
        ("display_name", JStr (Player.display_name p));
        ("avatar_url", str_or_none (Player.avatar_url p));
        ("created_at", isoformat_or_none (Player.created_at p))].

Definition list_players (limit : option Z) (q : option string) (d : db)
  : response * db :=
  let limit := default 50 limit in
  if bool_decide (1 ≤ limit ≤ 500) then
    match where_name_like q with
    | Some like =>
        let rows :=
          sql_limit limit
            (order_by_desc Player.created_at
               (filter (λ p, like (Player.display_name p)) (players d))) in
        (Ok (JList (player_json <$> rows)), d)
    | None => (InternalServerError, d)
    end
  else (RequestValidationError, d).

(** [sql_insert ... returning ...]; [now] is the database's clock, which
    fills [created_at]. *)
Definition insert_player (now : datetime) (name : string) (avatar_url : option string)
    (d : db) : Player.row * db :=
  let row := {| Player.player_id := players_seq d; Player.display_name := name;
                Player.avatar_url := avatar_url; Player.created_at := Some now |} in
  (row, {| venues := venues d; players := players d ++ [row]; games := games d;
           results := results d; venues_seq := venues_seq d;
           players_seq := players_seq d + 1; games_seq := games_seq d |}).

Definition create_player (now : datetime) (player : PlayerCreate.t) (d : db)
  : response * db :=
  if has_nul (PlayerCreate.display_name player) then (InternalServerError, d)
  else
    match fetchone (filter (λ p, lower (Player.display_name p)
                                   = lower (PlayerCreate.display_name player))
                      (players d)) with
    | Some _ =>
        (HTTPException 409
           ("player '" +:+ PlayerCreate.display_name player +:+ "' already exists"), d)
    | None =>
        if from_option has_nul false (PlayerCreate.avatar_url player)
        then (InternalServerError, d)
        else
          let (row, d') :=
            insert_player now (PlayerCreate.display_name player)
              (PlayerCreate.avatar_url player) d in
          (Ok (player_json row), d')
    end.

(** ** Venue resource *)

Definition venue_json (v : Venue.row) : json :=
  JObj [("venue_id", JInt (Venue.venue_id v));
        ("venue_name", JStr (Venue.venue_name v));
        ("address", str_or_none (Venue.address v));
        ("city", JStr (Venue.city v));
        ("state", JStr (Venue.state v));
        ("created_at", isoformat_or_none (Venue.created_at v))].

Definition list_venues (limit : option Z) (q : option string) (d : db)
  : response * db :=
  let limit := default 50 limit in
  if bool_decide (1 ≤ limit ≤ 500) then
    match where_name_like q with
    | Some like =>
        let rows :=
          sql_limit limit
            (order_by_desc Venue.created_at
               (filter (λ v, like (Venue.venue_name v)) (venues d))) in
        (Ok (JList (venue_json <$> rows)), d)
    | None => (InternalServerError, d)
    end
  else (RequestValidationError, d).

Definition insert_venue (now : datetime) (venue : VenueCreate.t) (d : db)
  : Venue.row * db :=
  let row := {| Venue.venue_id := venues_seq d;
                Venue.venue_name := VenueCreate.venue_name venue;
                Venue.address := VenueCreate.address venue;
                Venue.city := VenueCreate.city venue;
                Venue.state := VenueCreate.state venue;
                Venue.created_at := Some now |} in
  (row, {| venues := venues d ++ [row]; players := players d; games := games d;
           results := results d; venues_seq := venues_seq d + 1;
           players_seq := players_seq d; games_seq := games_seq d |}).

Definition create_venue (now : datetime) (venue : VenueCreate.t) (d : db)
  : response * db :=
  if has_nul (VenueCreate.venue_name venue) then (InternalServerError, d)
  else
    match fetchone (filter (λ v, lower (Venue.venue_name v)
                                   = lower (VenueCreate.venue_name venue))
                      (venues d)) with
    | Some _ =>
        (HTTPException 409
           ("venue '" +:+ VenueCreate.venue_name venue +:+ "' already exists"), d)
    | None =>
        if from_option has_nul false (VenueCreate.address venue)
           || has_nul (VenueCreate.city venue) || has_nul (VenueCreate.state venue)
        then (InternalServerError, d)
        else
          let (row, d') := insert_venue now venue d in
          (Ok (venue_json row), d')
    end.

(** ** The service: requests applied to the database one after another *)

Inductive request : Type :=
  | ListGames (limit : option Z) (venue : option string)
  | GetGame (game_id : Z)
  | GameResults (game_id : Z)
  | CreateGame (game : GameCreate.t)
  | AddResults (game_id : Z) (results : list ResultCreate.t)
  | ListPlayers (limit : option Z) (q : option string)
  | CreatePlayer (player : PlayerCreate.t)
  | ListVenues (limit : option Z) (q : option string)
  | CreateVenue (venue : VenueCreate.t).

(** [now] is the time of the database's clock when the request is served. *)
Definition handle (now : datetime) (req : request) (d : db) : response * db :=
  match req with
  | ListGames limit venue => list_games limit venue d
  | GetGame game_id => get_game game_id d
  | GameResults game_id => game_results game_id d
  | CreateGame game => create_game game d
  | AddResults game_id rs => add_results game_id rs d
  | ListPlayers limit q => list_players limit q d
  | CreatePlayer player => create_player now player d
  | ListVenues limit q => list_venues limit q d
  | CreateVenue venue => create_venue now venue d
  end.

Fixpoint run (reqs : list (datetime * request)) (d : db) : db :=
  match reqs with
  | [] => d
  | (now, req) :: reqs' => run reqs' (snd (handle now req d))
  end.

(** The states the service reaches from an empty database. *)
Definition reachable (d : db) : Prop := ∃ reqs, d = run reqs empty_db.

(** ** Schema constraints and the vocabulary of the specification *)

Definition game_exists (game_id : Z) (d : db) : Prop :=
  game_id ∈ Game.game_id <$> games d.

Definition player_exists (player_id : Z) (d : db) : Prop :=
  player_id ∈ Player.player_id <$> players d.

Definition venue_exists (venue_id : Z) (d : db) : Prop :=
  venue_id ∈ Venue.venue_id <$> venues d.

(** The players a submitted row names exist: the participant and, when
    given, the eliminating player. *)
Definition players_exist (r : ResultCreate.t) (d : db) : Prop :=
  player_exists (ResultCreate.player_id r) d ∧
  from_option (λ e, player_exists e d) True (ResultCreate.eliminated_by_player_id r).

Global Instance game_exists_dec game_id d : Decision (game_exists game_id d).
Proof. unfold game_exists. apply _. Defined.

Global Instance player_exists_dec player_id d : Decision (player_exists player_id d).
Proof. unfold player_exists. apply _. Defined.

Global Instance venue_exists_dec venue_id d : Decision (venue_exists venue_id d).
Proof. unfold venue_exists. apply _. Defined.

Global Instance players_exist_dec r d : Decision (players_exist r d).
Proof.
  unfold players_exist.
  destruct (ResultCreate.eliminated_by_player_id r); simpl; apply _.
Defined.

Definition result_key (r : Result.row) : Z * Z :=
  (Result.game_id r, Result.player_id r).

(** The result rows of one (game, player) pair. *)
Definition results_of (game_id player_id : Z) (d : db) : list Result.row :=
  filter (λ r, result_key r = (game_id, player_id)) (results d).

(** Modelled from the spec: the constraints of the absent schema that the
    handlers rely on, namely the composite unique key of the results table
    and the references of results and games. *)
Record schema_ok (d : db) : Prop :=
  { results_unique : NoDup (result_key <$> results d);
    results_references : Forall (λ r, references_ok r d) (results d);
    games_references : Forall (λ g, venue_exists (Game.venue_id g) d) (games d) }.

(** Two names that differ at most in letter case. *)
Definition same_ignoring_case (a b : string) : Prop := lower a = lower b.

(** [p] occurs in [s] as a substring: [s] has [p] as a prefix at some
    position. *)
Fixpoint has_prefix (p s : string) : bool :=
  match p, s with
  | EmptyString, _ => true
  | String _ _, EmptyString => false
  | String a p', String b s' => bool_decide (a = b) && has_prefix p' s'
  end.

Fixpoint occurs (p s : string) : bool :=
  has_prefix p s ||
  match s with
  | EmptyString => false
  | String _ s' => occurs p s'
  end.

(** [name] contains [q] as a substring, compared case-insensitively. *)
Definition contains_ignoring_case (q name : string) : Prop :=
  occurs (lower q) (lower name) = true.

Global Instance contains_ignoring_case_dec q name :
  Decision (contains_ignoring_case q name).
Proof. unfold contains_ignoring_case. apply _. Defined.

(** The characters [LIKE] gives a meaning of their own. *)
Definition wildcard (c : ascii) : Prop :=
  c = "%"%char ∨ c = "_"%char ∨ c = "\"%char.

Fixpoint no_wildcards (q : string) : Prop :=
  match q with
  | EmptyString => True
  | String c q' => ¬ wildcard c ∧ no_wildcards q'
  end.

(** The tokens of a pattern without wildcards. *)
Fixpoint literals (q : string) : list like_token :=
  match q with
  | EmptyString => []
  | String c q' => Lit c :: literals q'
  end.

(** The rows of the results table after the statements of one
    [add_results] call that the database accepts. *)
Definition upsert_all (game_id : Z) (rs : list ResultCreate.t)
    (rows : list Result.row) : list Result.row :=
  foldl (λ rows r, upsert_rows (result_values game_id r) rows) rows rs.

(** What the specification says of a filtered listing: the response holds
    the first [limit] entries of the rows of [table] whose name contains [q]
    ignoring case, in the listing's order. *)
Definition lists_containing {A : Type} (out : response * db) (d : db)
    (to_json : A → json) (order : relation A) (table : list A) (name : A → string)
    (limit : Z) (q : string) : Prop :=
  ∃ sorted,
    sorted ≡ₚ filter (λ x, contains_ignoring_case q (name x)) table ∧
    Sorted order sorted ∧
    out = (Ok (JList (to_json <$> take (Z.to_nat limit) sorted)), d).

Definition list_venues_contains (limit : option Z) (q : string) (d : db) : Prop :=
  lists_containing (list_venues limit (Some q) d) d venue_json
    (by_desc Venue.created_at) (venues d) Venue.venue_name (default 50 limit) q.

Definition list_players_contains (limit : option Z) (q : string) (d : db) : Prop :=
  lists_containing (list_players limit (Some q) d) d player_json
    (by_desc Player.created_at) (players d) Player.display_name (default 50 limit) q.

(** A database to try the handlers on: two venues, a game, two players and
    a leaderboard. *)
Definition scenario : list (datetime * request) :=
  [(10, CreateVenue {| VenueCreate.venue_name := "The Spot"; VenueCreate.address := None;
                       VenueCreate.city := "Atlanta"; VenueCreate.state := "GA" |});
   (11, CreateVenue {| VenueCreate.venue_name := "Atlanta Card Club";
                       VenueCreate.address := None;
                       VenueCreate.city := "Atlanta"; VenueCreate.state := "GA" |});
   (12, CreateGame {| GameCreate.game_title := "Weekly"; GameCreate.start_time := 100;
                      GameCreate.venue_id := 1 |});
   (13, CreatePlayer {| PlayerCreate.display_name := "P1";
                        PlayerCreate.avatar_url := None |});
   (14, CreatePlayer {| PlayerCreate.display_name := "P2";
                        PlayerCreate.avatar_url := None |});
   (15, AddResults 1 [ {| ResultCreate.finish_rank := 1; ResultCreate.player_id := 1;
                          ResultCreate.points := 100; ResultCreate.kos := 3;
                          ResultCreate.eliminated_by_player_id := None |};
                       {| ResultCreate.finish_rank := 2; ResultCreate.player_id := 2;
                          ResultCreate.points := 50; ResultCreate.kos := 1;
                          ResultCreate.eliminated_by_player_id := Some 1 |} ])].

Definition scenario_db : db := run scenario empty_db.

(** ** The allowed origins of the CORS middleware

    [main.py] reads [FRONTEND_ORIGINS] when the module is loaded:
    the entries between commas, stripped, without the blank ones; the two
    local origins when nothing is left. *)

(** [str.isspace] on the characters below U+0100: tab to carriage return,
    the four separators, the space, the next-line control U+0085 and the
    no-break space U+00A0. *)
Definition isspace (c : ascii) : bool :=
  let n := N_of_ascii c in
  (((9 <=? n) && (n <=? 13)) || ((28 <=? n) && (n <=? 32)) ||
   (n =? 133) || (n =? 160))%N.

Fixpoint lstrip (s : string) : string :=
  match s with
  | EmptyString => EmptyString
  | String c s' => if isspace c then lstrip s' else s
  end.

Fixpoint rstrip (s : string) : string :=
  match s with
  | EmptyString => EmptyString
  | String c s' =>
      match rstrip s' with
      | EmptyString => if isspace c then EmptyString else String c EmptyString
      | String c' t => String c (String c' t)
      end
  end.

(** [s.strip()] *)
Definition strip (s : string) : string := rstrip (lstrip s).

(** [s.split(sep)] for a separator of one character: the pieces between
    the separators, empty ones included. *)
Fixpoint split (sep : ascii) (s : string) : list string :=
  match s with
  | EmptyString => [EmptyString]
  | String c s' =>
      if decide (c = sep) then EmptyString :: split sep s'
      else match split sep s' with
           | piece :: pieces => String c piece :: pieces
           | [] => [String c EmptyString]
           end
  end.

(** [sep.join(pieces)] *)
Fixpoint join (sep : ascii) (pieces : list string) : string :=
  match pieces with
  | [] => EmptyString
  | [piece] => piece
  | piece :: pieces' => piece +:+ String sep (join sep pieces')
  end.

Definition default_origins : list string :=
  ["http://localhost:3000"; "http://127.0.0.1:3000"].

(** The value of [frontend_origins] passed to the middleware, from the value
    of [os.getenv("FRONTEND_ORIGINS", "")]. *)
Definition frontend_origins (frontend_origins_env : string) : list string :=
  let origins :=
    strip <$> filter (λ origin, strip origin ≠ EmptyString)
                (split ","%char frontend_origins_env) in
  match origins with
  | [] => default_origins
  | _ => origins
  end.

(** The first, respectively the last, character is white space. *)
Definition starts_with_space (s : string) : bool :=
  match s with
  | EmptyString => false
  | String c _ => isspace c
  end.

Fixpoint ends_with_space (s : string) : bool :=
  match s with
  | EmptyString => false
  | String c EmptyString => isspace c
  | String _ s' => ends_with_space s'
  end.

(** A blank entry: white space only, or nothing. *)
Fixpoint all_space (s : string) : bool :=
  match s with
  | EmptyString => true
  | String c s' => isspace c && all_space s'
  end.

(** An origin as the parser keeps it: not empty, no comma, no white space
    at either end. *)
Definition clean_origin (o : string) : Prop :=
  o ≠ EmptyString ∧ starts_with_space o = false ∧ ends_with_space o = false ∧
  has_char ","%char o = false.

Global Instance clean_origin_dec o : Decision (clean_origin o).
Proof. unfold clean_origin. apply _. Defined.

(** ** Keys and names

    Modelled from the spec: surrogate keys come from sequences, so the keys
    in a table are distinct and below the next value of its sequence. *)
Record keys_ok (d : db) : Prop :=
  { venue_keys : NoDup (Venue.venue_id <$> venues d);
    venue_keys_below : Forall (λ v, Venue.venue_id v < venues_seq d) (venues d);
    player_keys : NoDup (Player.player_id <$> players d);
    player_keys_below : Forall (λ p, Player.player_id p < players_seq d) (players d);
    game_keys : NoDup (Game.game_id <$> games d);
    game_keys_below : Forall (λ g, Game.game_id g < games_seq d) (games d) }.

(** No two venues, and no two players, share a name up to letter case. *)
Definition names_unique (d : db) : Prop :=
  NoDup ((λ v, lower (Venue.venue_name v)) <$> venues d) ∧
  NoDup ((λ p, lower (Player.display_name p)) <$> players d).

(** The listing of games filtered by a venue name, in the words used for
    venues and players. *)
Definition list_games_contains (limit : option Z) (q : string) (d : db) : Prop :=
  lists_containing (list_games limit (Some q) d) d game_summary
    (by_desc (λ row, Game.start_time (fst row))) (games_join_venues d)
    (λ row, Venue.venue_name (snd row)) (default 20 limit) q.

(** The characters of a query other than the escape character. *)
Fixpoint no_escape (q : string) : Prop :=
  match q with
  | EmptyString => True
  | String c q' => c ≠ "\"%char ∧ no_escape q'
  end.

(** The tokens of a query that holds no escape character: wildcards
    stay wildcards, every other character stands for itself. *)
Fixpoint query_tokens (q : string) : list like_token :=
  match q with
  | EmptyString => []
  | String c q' =>
      (if decide (c = "%"%char) then AnySeq
       else if decide (c = "_"%char) then AnyChar
       else Lit c) :: query_tokens q'
  end.

(** What an unfiltered listing returns: the first [limit] entries of the
    whole table, in the listing's order. *)
Definition lists_all {A : Type} (out : response * db) (d : db)
    (to_json : A → json) (order : relation A) (table : list A) (limit : Z) : Prop :=
  ∃ sorted,
    sorted ≡ₚ table ∧
    Sorted order sorted ∧
    out = (Ok (JList (to_json <$> take (Z.to_nat limit) sorted)), d).

(** The names in the tables are text the driver accepts. *)
Definition names_text_ok (d : db) : Prop :=
  Forall (λ v, no_nul (Venue.venue_name v)) (venues d) ∧
  Forall (λ p, no_nul (Player.display_name p)) (players d).

(** The text of a creation request is text the driver accepts. *)
Definition venue_text_ok (venue : VenueCreate.t) : Prop :=
  no_nul (VenueCreate.venue_name venue) ∧
  from_option no_nul True (VenueCreate.address venue) ∧
  no_nul (VenueCreate.city venue) ∧ no_nul (VenueCreate.state venue).

Definition player_text_ok (player : PlayerCreate.t) : Prop :=
  no_nul (PlayerCreate.display_name player) ∧
  from_option no_nul True (PlayerCreate.avatar_url player).

Global Instance venue_text_ok_dec venue : Decision (venue_text_ok venue).
Proof.
  unfold venue_text_ok. destruct (VenueCreate.address venue); simpl; apply _.
Defined.

Global Instance player_text_ok_dec player : Decision (player_text_ok player).
Proof.
  unfold player_text_ok. destruct (PlayerCreate.avatar_url player); simpl; apply _.
Defined.

(** * Properties *)

(** ** Text *)

Lemma append_nil s : "" +:+ s = s.
Proof. reflexivity. Qed.

Lemma append_cons c a b : String c a +:+ b = String c (a +:+ b).
Proof. reflexivity. Qed.

Lemma lower_app a b : lower (a +:+ b) = lower a +:+ lower b.
Proof. induction a as [|c a IH]; simpl; [done | by rewrite IH]. Qed.

Lemma lower_length s : String.length (lower s) = String.length s.
Proof. induction s as [|c s IH]; simpl; [done | by rewrite IH]. Qed.

Lemma lower_like_pattern q : lower (like_pattern q) = like_pattern (lower q).
Proof. unfold like_pattern. by rewrite !lower_app. Qed.

Lemma truthy_lower q q' : lower q = lower q' → truthy (Some q) = truthy (Some q').
Proof. destruct q, q'; simpl; congruence. Qed.

Lemma lower_char_wildcard c : wildcard (lower_char c) ↔ wildcard c.
Proof.
  assert (H : bool_decide (wildcard (lower_char c) ↔ wildcard c) = true).
  { unfold wildcard.
    destruct c as [[] [] [] [] [] [] [] []]; vm_compute; reflexivity. }
  by apply bool_decide_eq_true in H.
Qed.

Lemma lower_no_wildcards q : no_wildcards q → no_wildcards (lower q).
Proof.
  induction q as [|c q IH]; simpl; [done |].
  intros [Hc Hq]. split; [by rewrite lower_char_wildcard | auto].
Qed.

(** [occurs] is the substring relation. *)
Lemma has_prefix_spec p s : has_prefix p s = true ↔ ∃ post, s = p +:+ post.
Proof.
  revert s. induction p as [|a p IH]; intros s; simpl.
  - split; [intros _; by exists s | done].
  - destruct s as [|b s]; simpl.
    + split; [done | intros [post ?]; discriminate].
    + rewrite andb_true_iff, bool_decide_eq_true, IH. split.
      * intros [-> [post ->]]. by exists post.
      * intros [post [= -> ->]]. eauto.
Qed.

Lemma occurs_spec p s : occurs p s = true ↔ ∃ pre post, s = pre +:+ p +:+ post.
Proof.
  induction s as [|c s IH]; simpl.
  - rewrite orb_false_r, has_prefix_spec. split.
    + intros [post ->]. by exists EmptyString, post.
    + intros [pre [post H]]. destruct pre; [by exists post | discriminate].
  - rewrite orb_true_iff, has_prefix_spec, IH. split.
    + intros [[post ->] | [pre [post ->]]].
      * by exists EmptyString, post.
      * by exists (String c pre), post.
    + intros [pre [post H]]. destruct pre as [|c' pre]; simpl in H.
      * left. by exists post.
      * right. injection H as _ ->. by exists pre, post.
Qed.

(** *** Patterns without wildcards match as substrings *)

Lemma like_match_any_seq ts s :
  like_match (AnySeq :: ts) s =
  like_match ts s ||
  match s with
  | EmptyString => false
  | String _ s' => like_match (AnySeq :: ts) s'
  end.
Proof. by destruct s. Qed.

Lemma like_match_trailing_any s : like_match [AnySeq] s = true.
Proof.
  induction s as [|c s IH]; [done |].
  rewrite like_match_any_seq. by rewrite IH, orb_true_r.
Qed.

Lemma like_match_literals_prefix q s :
  like_match (literals q ++ [AnySeq]) s = has_prefix q s.
Proof.
  revert s. induction q as [|a q IH]; intros s.
  - apply like_match_trailing_any.
  - destruct s as [|b s]; simpl; [done |]. by rewrite IH.
Qed.

Lemma like_match_substring q s :
  like_match (AnySeq :: literals q ++ [AnySeq]) s = occurs q s.
Proof.
  induction s as [|c s IH]; rewrite like_match_any_seq, like_match_literals_prefix.
  - done.
  - simpl occurs. by rewrite IH.
Qed.

Lemma like_tokens_literals q rest :
  no_wildcards q →
  like_tokens (q +:+ rest) = (literals q ++.) <$> like_tokens rest.
Proof.
  induction q as [|c q IH].
  - intros _. rewrite append_nil. by destruct (like_tokens rest).
  - intros [Hc Hq]. unfold wildcard in Hc.
    rewrite append_cons. cbn [like_tokens literals].
    repeat case_decide; try tauto.
    rewrite IH by done. by destruct (like_tokens rest).
Qed.

Lemma like_tokens_substring q :
  no_wildcards q →
  like_tokens (like_pattern q) = Some (AnySeq :: literals q ++ [AnySeq]).
Proof.
  intros Hq. unfold like_pattern. rewrite append_cons, append_nil.
  cbn [like_tokens]. repeat case_decide; try done.
  by rewrite like_tokens_literals.
Qed.

Lemma like_tokens_cons c p :
  like_tokens (String c p) =
  if decide (c = "\"%char) then
    match p with
    | EmptyString => None
    | String c' p' => cons (Lit c') <$> like_tokens p'
    end
  else if decide (c = "%"%char) then cons AnySeq <$> like_tokens p
  else if decide (c = "_"%char) then cons AnyChar <$> like_tokens p
  else cons (Lit c) <$> like_tokens p.
Proof. reflexivity. Qed.

(** The patterns the handlers build never end in a lone escape, so the
    database accepts them all. *)
Lemma like_tokens_wrapped s :
  is_Some (like_tokens (s +:+ "%")) ∧ ∀ c, is_Some (like_tokens (String c (s +:+ "%"))).
Proof.
  induction s as [|a s [IH1 IH2]].
  - rewrite append_nil. split; [by exists [AnySeq] |].
    intros c. rewrite like_tokens_cons.
    repeat case_decide; first [by exists [Lit "%"%char] | apply fmap_is_Some; by exists [AnySeq]].
  - split; [apply IH2 |]. intros c. rewrite append_cons, like_tokens_cons.
    repeat case_decide; apply fmap_is_Some; auto.
Qed.

Lemma like_tokens_pattern q : is_Some (like_tokens (like_pattern q)).
Proof.
  unfold like_pattern. rewrite append_cons, append_nil.
  cbn [like_tokens]. repeat case_decide; try done.
  apply fmap_is_Some, like_tokens_wrapped.
Qed.

Lemma lower_char_nul c : lower_char c = "000"%char ↔ c = "000"%char.
Proof.
  assert (H : bool_decide (lower_char c = "000"%char ↔ c = "000"%char) = true).
  { destruct c as [[] [] [] [] [] [] [] []]; vm_compute; reflexivity. }
  by apply bool_decide_eq_true in H.
Qed.

Lemma has_nul_lower s : has_nul (lower s) = has_nul s.
Proof.
  unfold has_nul. induction s as [|c s IH]; simpl; [done |]. rewrite IH. f_equal.
  apply bool_decide_ext, lower_char_nul.
Qed.

Lemma has_nul_like_pattern q : has_nul (like_pattern q) = has_nul q.
Proof.
  unfold has_nul, like_pattern. rewrite append_cons, append_nil. simpl.
  induction q as [|c q IH]; [done |]. rewrite append_cons. simpl. by rewrite IH.
Qed.

(** The statement of a listing runs unless the filter holds U+0000. *)
Lemma where_name_like_is_Some q :
  from_option no_nul True q → is_Some (where_name_like q).
Proof.
  destruct q as [[|c s]|]; simpl; [by eexists | | by eexists].
  intros Hq. rewrite has_nul_like_pattern, Hq.
  unfold lower_like. rewrite lower_like_pattern.
  apply fmap_is_Some, like_tokens_pattern.
Qed.

Lemma where_name_like_nul q : has_nul q = true → where_name_like (Some q) = None.
Proof.
  intros Hq. destruct q as [|c s]; [done |]. simpl.
  by rewrite has_nul_like_pattern, Hq.
Qed.

Lemma where_name_like_case q q' :
  lower q = lower q' → where_name_like (Some q) = where_name_like (Some q').
Proof.
  intros H. unfold where_name_like. rewrite (truthy_lower _ _ H).
  rewrite !has_nul_like_pattern, <- (has_nul_lower q), <- (has_nul_lower q'), H.
  unfold lower_like. by rewrite !lower_like_pattern, H.
Qed.

Lemma where_name_like_substring q :
  no_wildcards q → no_nul q →
  ∃ like, where_name_like (Some q) = Some like ∧
          ∀ name, like name = true ↔ contains_ignoring_case q name.
Proof.
  intros Hq Hnul. destruct q as [|c q].
  - exists (λ _, true). split; [done |]. intros name.
    unfold contains_ignoring_case. by destruct (lower name).
  - set (q' := String c q) in *.
    exists (λ name, like_match (AnySeq :: literals (lower q') ++ [AnySeq]) (lower name)).
    split.
    + unfold where_name_like, lower_like. rewrite has_nul_like_pattern, Hnul.
      rewrite lower_like_pattern, like_tokens_substring by by apply lower_no_wildcards.
      reflexivity.
    + intros name. unfold contains_ignoring_case. by rewrite like_match_substring.
Qed.

(** ** Listings *)

Lemma insert_by_Permutation {A : Type} (R : relation A) `{!RelDecision R} x l :
  insert_by R x l ≡ₚ x :: l.
Proof.
  induction l as [|y l IH]; simpl; [done |].
  case_decide; [done |]. rewrite IH. apply perm_swap.
Qed.

Lemma stable_sort_Permutation {A : Type} (R : relation A) `{!RelDecision R} l :
  stable_sort R l ≡ₚ l.
Proof.
  induction l as [|x l IH]; simpl; [done |]. by rewrite insert_by_Permutation, IH.
Qed.

Lemma insert_by_Sorted {A : Type} (R : relation A) `{!RelDecision R} `{!Total R} x l :
  Sorted R l → Sorted R (insert_by R x l).
Proof.
  induction l as [|y l IH]; simpl; intros Hl.
  - by repeat constructor.
  - case_decide as Hxy.
    + constructor; [done |]. by constructor.
    + apply Sorted_inv in Hl as [Hl Hhd]. constructor; [by apply IH |].
      assert (R y x) as Hyx by (by destruct (total R x y)).
      destruct l as [|z l]; simpl; [by constructor |].
      case_decide; constructor; [done |]. by apply HdRel_inv in Hhd.
Qed.

Lemma Sorted_stable_sort {A : Type} (R : relation A) `{!RelDecision R} `{!Total R} l :
  Sorted R (stable_sort R l).
Proof.
  induction l as [|x l IH]; simpl; [constructor |]. by apply insert_by_Sorted.
Qed.

Lemma by_desc_total {A : Type} (k : A → option Z) : Total (by_desc k).
Proof.
  intros x y. unfold by_desc, desc_order.
  destruct (k x), (k y); auto. lia.
Qed.

Lemma lists_containing_intro {A : Type} (to_json : A → json) (k : A → option Z)
    (table : list A) (name : A → string) (limit : Z) (q : string) (d : db)
    (like : string → bool) :
  (∀ s, like s = true ↔ contains_ignoring_case q s) →
  lists_containing
    (Ok (JList (to_json <$>
                  sql_limit limit (order_by_desc k (filter (λ x, like (name x)) table)))), d)
    d to_json (by_desc k) table name limit q.
Proof.
  intros Hlike.
  exists (order_by_desc k (filter (λ x, contains_ignoring_case q (name x)) table)).
  pose proof (by_desc_total k).
  split_and!.
  - apply stable_sort_Permutation.
  - by apply Sorted_stable_sort.
  - assert (filter (λ x, like (name x)) table
            = filter (λ x, contains_ignoring_case q (name x)) table) as ->; [| done].
    apply list_filter_iff. intros x. by rewrite Is_true_true.
Qed.

(** C8, as the handlers have it: a query that holds none of the characters
    [LIKE] reads as wildcards ([%], [_] and the backslash) and no U+0000
    selects exactly the venues, respectively the players, whose name
    contains it as a substring ignoring case, newest first and cut at the
    limit; and for every query the letter case of the query does not change
    the response. *)
Theorem list_filter_substring (d : db) (limit : option Z) (q : string) :
  1 ≤ default 50 limit ≤ 500 →
  (no_wildcards q → no_nul q →
   list_venues_contains limit q d ∧ list_players_contains limit q d) ∧
  (∀ q', same_ignoring_case q' q →
         list_venues limit (Some q') d = list_venues limit (Some q) d ∧
         list_players limit (Some q') d = list_players limit (Some q) d).
Proof.
  intros Hlimit. split.
  - intros Hq Hnul.
    destruct (where_name_like_substring q Hq Hnul) as (like & Hsome & Hlike).
    unfold list_venues_contains, list_players_contains, list_venues, list_players.
    rewrite bool_decide_eq_true_2, Hsome by done.
    split; by apply lists_containing_intro.
  - intros q' Hcase. unfold list_venues, list_players.
    by rewrite (where_name_like_case q' q Hcase).
Qed.

Lemma list_filter_substring_witness :
  1 ≤ default 50 None ≤ 500 ∧ no_wildcards "CARD" ∧ no_nul "CARD" ∧
  same_ignoring_case "card" "CARD" ∧
  list_venues_contains None "CARD" scenario_db ∧
  list_venues None (Some "card") scenario_db = list_venues None (Some "CARD") scenario_db.
Proof.
  assert (Hlimit : 1 ≤ default 50 None ≤ 500) by (simpl; lia).
  assert (Hq : no_wildcards "CARD").
  { simpl. unfold wildcard. repeat split; intros [|[|]]; discriminate. }
  assert (Hnul : no_nul "CARD") by reflexivity.
  assert (Hcase : same_ignoring_case "card" "CARD") by reflexivity.
  destruct (list_filter_substring scenario_db None "CARD" Hlimit) as [Hsub Hsame].
  refine (conj Hlimit (conj Hq (conj Hnul (conj Hcase (conj _ _))))).
  - exact (proj1 (Hsub Hq Hnul)).
  - exact (proj1 (Hsame "card" Hcase)).
Defined.

(** C8 as the specification words it fails on a query that holds a
    wildcard, and on one that holds U+0000: with [q = "_"] every venue with
    a name is listed, though no name contains an underscore; with U+0000
    the driver refuses the parameter and the request ends in a server
    error. *)
Lemma list_venues_wildcard_counterexample :
  ¬ list_venues_contains None "_" scenario_db ∧
  ¬ list_venues_contains None (String "000" "") scenario_db.
Proof.
  split.
  - intros (sorted & Hperm & _ & Hout).
    apply Permutation_nil_r in Hperm. subst sorted.
    vm_compute in Hout. discriminate.
  - intros (sorted & _ & _ & Hout). vm_compute in Hout. discriminate.
Qed.

Lemma filter_all {A : Type} (l : list A) : filter (λ _ : A, Is_true true) l = l.
Proof.
  induction l as [|x l IH]; [done |].
  rewrite filter_cons_True by done. by rewrite IH.
Qed.

Lemma lists_all_intro {A : Type} (to_json : A → json) (k : A → option Z)
    (table : list A) (limit : Z) (d : db) :
  lists_all
    (Ok (JList (to_json <$>
                  sql_limit limit
                    (order_by_desc k (filter (λ _ : A, Is_true true) table)))), d)
    d to_json (by_desc k) table limit.
Proof.
  exists (order_by_desc k table). pose proof (by_desc_total k).
  split_and!.
  - apply stable_sort_Permutation.
  - by apply Sorted_stable_sort.
  - by rewrite filter_all.
Qed.

(** C9: an empty filter string is the same as no filter, for the three
    listings: the responses are equal, and within the bounds of the limit
    they hold the first [limit] rows of the whole table, no filter applied,
    in the listing's order. *)
Theorem empty_filter_is_no_filter (d : db) (limit : option Z) :
  (list_games limit (Some "") d = list_games limit None d ∧
   list_players limit (Some "") d = list_players limit None d ∧
   list_venues limit (Some "") d = list_venues limit None d) ∧
  (1 ≤ default 20 limit ≤ 200 →
   lists_all (list_games limit (Some "") d) d game_summary
     (by_desc (λ row, Game.start_time (fst row))) (games_join_venues d)
     (default 20 limit)) ∧
  (1 ≤ default 50 limit ≤ 500 →
   lists_all (list_players limit (Some "") d) d player_json
     (by_desc Player.created_at) (players d) (default 50 limit) ∧
   lists_all (list_venues limit (Some "") d) d venue_json
     (by_desc Venue.created_at) (venues d) (default 50 limit)).
Proof.
  split_and!; try done.
  - intros Hlimit. unfold list_games.
    rewrite bool_decide_eq_true_2 by done. simpl.
    apply (lists_all_intro game_summary
             (λ row : Game.row * Venue.row, Game.start_time (fst row))).
  - intros Hlimit. unfold list_players, list_venues.
    rewrite bool_decide_eq_true_2 by done. simpl.
    split; apply lists_all_intro.
Qed.

Lemma empty_filter_is_no_filter_witness :
  1 ≤ default 50 (Some 1) ≤ 500 ∧
  list_venues (Some 1) (Some "") scenario_db = list_venues (Some 1) None scenario_db ∧
  lists_all (list_venues (Some 1) (Some "") scenario_db) scenario_db venue_json
    (by_desc Venue.created_at) (venues scenario_db) 1.
Proof.
  assert (Hlimit : 1 ≤ default 50 (Some 1) ≤ 500) by (simpl; lia).
  destruct (empty_filter_is_no_filter scenario_db (Some 1))
    as ((_ & _ & Hsame) & _ & Hall).
  refine (conj Hlimit (conj Hsame _)). exact (proj2 (Hall Hlimit)).
Defined.

(** ** Queries that fetch one row *)

Lemma filter_none {A : Type} (P : A → Prop) `{!∀ x, Decision (P x)} (l : list A) :
  (∀ x, x ∈ l → ¬ P x) → filter P l = [].
Proof.
  induction l as [|y l IH]; intros Hno; [done |].
  rewrite filter_cons_False by (apply Hno; left).
  apply IH. intros x Hx. apply Hno. by right.
Qed.

Lemma fetchone_filter_None {A : Type} (P : A → Prop) `{!∀ x, Decision (P x)} (l : list A) :
  (∀ x, x ∈ l → ¬ P x) → fetchone (filter P l) = None.
Proof. intros Hno. by apply head_None, filter_none. Qed.

Lemma fetchone_filter_Some {A : Type} (P : A → Prop) `{!∀ x, Decision (P x)}
    (l : list A) (x : A) :
  x ∈ l → P x → ∃ y, fetchone (filter P l) = Some y ∧ y ∈ l ∧ P y.
Proof.
  intros Hx HP. unfold fetchone.
  destruct (filter P l) as [|y l'] eqn:Hf.
  - assert (x ∈ filter P l) as Hin by by apply list_elem_of_filter.
    rewrite Hf in Hin. by apply not_elem_of_nil in Hin.
  - exists y. split; [done |].
    assert (y ∈ filter P l) as Hin by (rewrite Hf; left).
    apply list_elem_of_filter in Hin. tauto.
Qed.

Lemma game_exists_fetchone game_id d :
  game_exists game_id d →
  ∃ g, fetchone (filter (λ g, Game.game_id g = game_id) (games d)) = Some g.
Proof.
  intros (g & -> & Hg)%list_elem_of_fmap.
  destruct (fetchone_filter_Some (λ g', Game.game_id g' = Game.game_id g) (games d) g)
    as (y & Hy & _); eauto.
Qed.

Lemma game_missing_fetchone game_id d :
  ¬ game_exists game_id d →
  fetchone (filter (λ g, Game.game_id g = game_id) (games d)) = None.
Proof.
  intros Hno. apply fetchone_filter_None. intros g Hg <-.
  apply Hno. by apply list_elem_of_fmap_2.
Qed.

(** ** Simple refusals *)

(** C2: for a game that does not exist, [add_results] answers 200 with a
    body that carries an [error] field, and the database is unchanged. *)
Theorem add_results_unknown_game (d : db) (game_id : Z) (rs : list ResultCreate.t) :
  ¬ game_exists game_id d →
  add_results game_id rs d
  = (Ok (JObj [("error", JStr ("Game " +:+ str game_id +:+ " not found"))]), d).
Proof. intros Hno. unfold add_results. by rewrite game_missing_fetchone. Qed.

Lemma add_results_unknown_game_witness :
  ¬ game_exists 7 scenario_db ∧
  add_results 7 [] scenario_db = (Ok (JObj [("error", JStr "Game 7 not found")]), scenario_db).
Proof.
  assert (H : ¬ game_exists 7 scenario_db) by compute_done.
  split; [exact H |]. exact (add_results_unknown_game scenario_db 7 [] H).
Defined.

(** C5: a game for a venue that does not exist is refused with status 400,
    and no game row is written. *)
Theorem create_game_unknown_venue (d : db) (game : GameCreate.t) :
  ¬ venue_exists (GameCreate.venue_id game) d →
  create_game game d
  = (HTTPException 400
       ("venue_id " +:+ str (GameCreate.venue_id game) +:+ " does not exist"), d).
Proof.
  intros Hno. unfold create_game.
  rewrite fetchone_filter_None; [done |].
  intros v Hv Hid. apply Hno. unfold venue_exists. rewrite <- Hid.
  by apply list_elem_of_fmap_2.
Qed.

Lemma create_game_unknown_venue_witness :
  let game := {| GameCreate.game_title := "Friday"; GameCreate.start_time := 200;
                 GameCreate.venue_id := 9 |} in
  ¬ venue_exists 9 scenario_db ∧
  create_game game scenario_db
  = (HTTPException 400 "venue_id 9 does not exist", scenario_db).
Proof.
  intros game.
  assert (H : ¬ venue_exists (GameCreate.venue_id game) scenario_db) by compute_done.
  split; [exact H |]. exact (create_game_unknown_venue scenario_db game H).
Defined.

(** C6, as the handler has it: a game for a venue that exists, with a
    title the driver accepts (no U+0000), is inserted with the status
    ["scheduled"], whatever the request carried, and the response shows the
    new row together with the name of its venue. *)
Theorem create_game_scheduled (d : db) (game : GameCreate.t) :
  venue_exists (GameCreate.venue_id game) d →
  no_nul (GameCreate.game_title game) →
  ∃ v, v ∈ venues d ∧ Venue.venue_id v = GameCreate.venue_id game ∧
    let row := {| Game.game_id := games_seq d;
                  Game.game_title := GameCreate.game_title game;
                  Game.start_time := Some (GameCreate.start_time game);
                  Game.status := "scheduled";
                  Game.venue_id := GameCreate.venue_id game |} in
    fst (create_game game d)
    = Ok (JObj [("game_id", JInt (games_seq d));
                ("game_title", JStr (GameCreate.game_title game));
                ("start_time", JDateTime (GameCreate.start_time game));
                ("status", JStr "scheduled");
                ("venue", JObj [("venue_id", JInt (GameCreate.venue_id game));
                                ("venue_name", JStr (Venue.venue_name v))])]) ∧
    games (snd (create_game game d)) = games d ++ [row] ∧
    venues (snd (create_game game d)) = venues d ∧
    players (snd (create_game game d)) = players d ∧
    results (snd (create_game game d)) = results d.
Proof.
  intros (v & Hid & Hv)%list_elem_of_fmap Htitle.
  destruct (fetchone_filter_Some
              (λ v', Venue.venue_id v' = GameCreate.venue_id game) (venues d) v)
    as (v' & Hfetch & Hv' & Hid'); [done.. |].
  exists v'. unfold create_game. rewrite Hfetch, Htitle. simpl. by rewrite Hid'.
Qed.

Lemma create_game_scheduled_witness :
  let game := {| GameCreate.game_title := "Friday"; GameCreate.start_time := 200;
                 GameCreate.venue_id := 2 |} in
  venue_exists 2 scenario_db ∧
  ∃ v, v ∈ venues scenario_db ∧ Venue.venue_id v = 2 ∧
    fst (create_game game scenario_db)
    = Ok (JObj [("game_id", JInt 2);
                ("game_title", JStr "Friday");
                ("start_time", JDateTime 200);
                ("status", JStr "scheduled");
                ("venue", JObj [("venue_id", JInt 2);
                                ("venue_name", JStr (Venue.venue_name v))])]).
Proof.
  intros game.
  assert (H : venue_exists (GameCreate.venue_id game) scenario_db) by compute_done.
  split; [exact H |].
  destruct (create_game_scheduled scenario_db game H eq_refl)
    as (v & Hv & Hid & Hout & _).
  exists v. split_and!; [exact Hv | exact Hid | exact Hout].
Defined.

(** C6 as the specification words it fails on a title that holds U+0000:
    the venue exists, yet the driver refuses the insert, the request ends in
    a server error and no game row is written. *)
Lemma create_game_nul_title_counterexample :
  let game := {| GameCreate.game_title := String "000" "Friday";
                 GameCreate.start_time := 200; GameCreate.venue_id := 2 |} in
  venue_exists 2 scenario_db ∧
  fst (create_game game scenario_db) = InternalServerError ∧
  games (snd (create_game game scenario_db)) = games scenario_db.
Proof. intros game. split; [compute_done | by vm_compute]. Qed.

(** ** The upsert on the rows of the results table *)

Lemma conflicts_key new old : conflicts new old ↔ result_key old = result_key new.
Proof.
  unfold conflicts, result_key. split; [by intros [-> ->] | by intros [= -> ->]].
Qed.

Lemma do_update_conflict new old : conflicts new old → do_update new old = new.
Proof. destruct new, old. unfold conflicts, do_update. simpl. by intros [-> ->]. Qed.

Lemma no_conflict_key new rows :
  ¬ Exists (conflicts new) rows → result_key new ∉ result_key <$> rows.
Proof.
  intros Hno (old & Hkey & Hold)%list_elem_of_fmap. apply Hno.
  apply Exists_exists. exists old. split; [done |]. by apply conflicts_key.
Qed.

Lemma upsert_rows_conflict new rows :
  Exists (conflicts new) rows →
  upsert_rows new rows = (λ old, if decide (conflicts new old) then new else old) <$> rows.
Proof.
  intros Hex. unfold upsert_rows. rewrite decide_True by done.
  apply list_fmap_ext. intros _ old _. case_decide; [by apply do_update_conflict | done].
Qed.

Lemma upsert_rows_fresh new rows :
  ¬ Exists (conflicts new) rows → upsert_rows new rows = rows ++ [new].
Proof. intros Hno. unfold upsert_rows. by rewrite decide_False. Qed.

Lemma upsert_rows_keys new rows :
  result_key <$> upsert_rows new rows
  = if decide (Exists (conflicts new) rows)
    then result_key <$> rows
    else (result_key <$> rows) ++ [result_key new].
Proof.
  case_decide as Hex.
  - rewrite upsert_rows_conflict by done. rewrite <- list_fmap_compose.
    apply list_fmap_ext. intros _ old _. simpl.
    case_decide as Hc; [| done]. symmetry. by apply conflicts_key.
  - rewrite upsert_rows_fresh by done. by rewrite fmap_app.
Qed.

Lemma upsert_rows_NoDup new rows :
  NoDup (result_key <$> rows) → NoDup (result_key <$> upsert_rows new rows).
Proof.
  intros Hnd. rewrite upsert_rows_keys. case_decide as Hex; [done |].
  apply NoDup_app. split_and!; [done | | apply NoDup_singleton].
  intros k Hk ->%list_elem_of_singleton. by apply (no_conflict_key new rows).
Qed.

(** After the upsert the table holds exactly one row under the key of the
    submitted row, and it is the submitted row. *)
Lemma upsert_rows_same new rows :
  NoDup (result_key <$> rows) →
  filter (λ r, result_key r = result_key new) (upsert_rows new rows) = [new].
Proof.
  intros Hnd. destruct (decide (Exists (conflicts new) rows)) as [Hex | Hno].
  - rewrite upsert_rows_conflict by done.
    induction rows as [|old rows IH]; [by inversion Hex |].
    rewrite fmap_cons in Hnd. apply NoDup_cons in Hnd as [Hold Hnd].
    rewrite fmap_cons. case_decide as Hc.
    + rewrite filter_cons_True by done. f_equal.
      apply filter_none. intros r (old' & -> & Hold')%list_elem_of_fmap Hkey.
      apply Hold. apply conflicts_key in Hc. rewrite Hc.
      case_decide; [| rewrite <- Hkey; by apply list_elem_of_fmap_2].
      rewrite <- (proj1 (conflicts_key new old')) by done.
      by apply list_elem_of_fmap_2.
    + rewrite filter_cons_False by (by rewrite <- conflicts_key).
      apply IH; [done |]. by apply Exists_cons in Hex as [? | ?].
  - rewrite upsert_rows_fresh by done. rewrite filter_app.
    rewrite (filter_none _ rows); [by rewrite filter_cons_True |].
    intros r Hr Hkey. apply (no_conflict_key new rows Hno).
    rewrite <- Hkey. by apply list_elem_of_fmap_2.
Qed.

(** The rows under every other key are left as they were. *)
Lemma upsert_rows_other new rows k :
  k ≠ result_key new →
  filter (λ r, result_key r = k) (upsert_rows new rows)
  = filter (λ r, result_key r = k) rows.
Proof.
  intros Hk. destruct (decide (Exists (conflicts new) rows)) as [Hex | Hno].
  - rewrite upsert_rows_conflict by done. clear Hex.
    induction rows as [|old rows IH]; [done |].
    rewrite fmap_cons. case_decide as Hc.
    + apply conflicts_key in Hc.
      rewrite !filter_cons_False by congruence. apply IH.
    + destruct (decide (result_key old = k)).
      * rewrite !filter_cons_True by done. by rewrite IH.
      * rewrite !filter_cons_False by done. apply IH.
  - rewrite upsert_rows_fresh by done. rewrite filter_app.
    rewrite filter_cons_False by congruence. by rewrite filter_nil, app_nil_r.
Qed.

Lemma upsert_all_NoDup game_id rs rows :
  NoDup (result_key <$> rows) → NoDup (result_key <$> upsert_all game_id rs rows).
Proof.
  revert rows. induction rs as [|r rs IH]; intros rows Hnd; [done |].
  apply IH. by apply upsert_rows_NoDup.
Qed.

(** Rows applied in sequence: under a player's key the table ends with the
    last row submitted for that player, and is untouched when none was. *)
Lemma upsert_all_last game_id rs rows player_id :
  NoDup (result_key <$> rows) →
  filter (λ r, result_key r = (game_id, player_id)) (upsert_all game_id rs rows)
  = from_option (λ r, [result_values game_id r])
      (filter (λ r, result_key r = (game_id, player_id)) rows)
      (last (filter (λ r, ResultCreate.player_id r = player_id) rs)).
Proof.
  revert rows. induction rs as [|r rs IH]; intros rows Hnd; [done |].
  change (upsert_all game_id (r :: rs) rows)
    with (upsert_all game_id rs (upsert_rows (result_values game_id r) rows)).
  rewrite IH by by apply upsert_rows_NoDup.
  destruct (decide (ResultCreate.player_id r = player_id)) as [Hp | Hp].
  - rewrite (filter_cons_True _ r) by done.
    destruct (filter _ rs) as [|r' rs'] eqn:Hrs.
    + simpl. rewrite <- Hp.
      by apply (upsert_rows_same (result_values game_id r)).
    + assert (is_Some (last (r' :: rs'))) as [x Hx] by by apply last_is_Some.
      change (last (r :: r' :: rs')) with (last (r' :: rs')). by rewrite Hx.
  - rewrite (filter_cons_False _ r) by done.
    destruct (last (filter _ rs)); [done |]. simpl.
    apply upsert_rows_other. unfold result_key. simpl. congruence.
Qed.

(** ** The results loop on the database *)

Lemma references_ok_values game_id r d :
  game_exists game_id d → players_exist r d →
  references_ok (result_values game_id r) d.
Proof. intros Hg [Hp He]. by split_and!. Qed.

Lemma upsert_result_accepted new d :
  references_ok new d →
  upsert_result new d = Some (with_results d (upsert_rows new (results d))).
Proof. intros Hok. unfold upsert_result. by rewrite decide_True. Qed.

(** When every submitted row names players that exist, no statement fails
    and the loop leaves the table as the sequence of upserts makes it. *)
Lemma insert_results_accepted game_id rs d :
  game_exists game_id d → Forall (λ r, players_exist r d) rs →
  insert_results game_id rs d
  = (Some (), with_results d (upsert_all game_id rs (results d))).
Proof.
  intros Hg Hrs. revert d Hg Hrs.
  induction rs as [|r rs IH]; intros d Hg Hrs.
  - by destruct d.
  - apply Forall_cons in Hrs as [Hr Hrs]. simpl.
    rewrite upsert_result_accepted by by apply references_ok_values.
    rewrite IH; done.
Qed.

Lemma add_results_accepted game_id rs d :
  game_exists game_id d → Forall (λ r, players_exist r d) rs →
  add_results game_id rs d
  = (Ok (JObj [("game_id", JInt game_id);
               ("inserted_results", JInt (Z.of_nat (length rs)))]),
     with_results d (upsert_all game_id rs (results d))).
Proof.
  intros Hg Hrs. unfold add_results.
  destruct (game_exists_fetchone game_id d Hg) as [g ->].
  by rewrite insert_results_accepted.
Qed.

(** The loop touches the results table only. *)
Lemma insert_results_tables game_id rs d :
  let d' := snd (insert_results game_id rs d) in
  venues d' = venues d ∧ players d' = players d ∧ games d' = games d.
Proof.
  revert d. induction rs as [|r rs IH]; intros d; simpl; [done |].
  unfold upsert_result. case_decide; [| done].
  destruct (IH (with_results d (upsert_rows (result_values game_id r) (results d))))
    as (-> & -> & ->). done.
Qed.

(** ** The schema constraints hold in every state the service reaches *)

Lemma references_ok_mono r d d' :
  (∀ x, game_exists x d → game_exists x d') →
  (∀ x, player_exists x d → player_exists x d') →
  references_ok r d → references_ok r d'.
Proof.
  intros Hg Hp (H1 & H2 & H3). split_and!; [by apply Hg | by apply Hp |].
  destruct (Result.eliminated_by_player_id r); simpl in *; [by apply Hp | done].
Qed.

Lemma schema_ok_empty : schema_ok empty_db.
Proof. split; simpl; constructor. Qed.

Lemma upsert_result_schema_ok new d d' :
  schema_ok d → upsert_result new d = Some d' → schema_ok d'.
Proof.
  intros [Hnd Href Hgames]. unfold upsert_result. case_decide as Hok; [| done].
  intros [= <-]. split; simpl.
  - by apply upsert_rows_NoDup.
  - change (Forall (λ r, references_ok r d) (upsert_rows new (results d))).
    destruct (decide (Exists (conflicts new) (results d))).
    + rewrite upsert_rows_conflict by done. apply Forall_fmap.
      eapply Forall_impl; [exact Href |]. intros old Hold. simpl. by case_decide.
    + rewrite upsert_rows_fresh by done. apply Forall_app. split; [done |].
      by apply Forall_singleton.
  - exact Hgames.
Qed.

Lemma insert_results_schema_ok game_id rs d :
  schema_ok d → schema_ok (snd (insert_results game_id rs d)).
Proof.
  revert d. induction rs as [|r rs IH]; intros d Hd; simpl; [done |].
  destruct (upsert_result _ d) as [d' |] eqn:Hup; [| done].
  apply IH. by eapply upsert_result_schema_ok.
Qed.

Lemma add_results_schema_ok game_id rs d :
  schema_ok d → schema_ok (snd (add_results game_id rs d)).
Proof.
  intros Hd. unfold add_results. destruct (fetchone _); [| done].
  pose proof (insert_results_schema_ok game_id rs d Hd) as H.
  by destruct (insert_results game_id rs d) as [[[] |] d'].
Qed.

(** What a creation does to the database: nothing, or one row appended. *)
Lemma create_game_cases game d :
  snd (create_game game d) = d ∨
  ∃ v, v ∈ venues d ∧ Venue.venue_id v = GameCreate.venue_id game ∧
       no_nul (GameCreate.game_title game) ∧
       snd (create_game game d)
       = {| venues := venues d; players := players d;
            games := games d ++ [{| Game.game_id := games_seq d;
                                    Game.game_title := GameCreate.game_title game;
                                    Game.start_time := Some (GameCreate.start_time game);
                                    Game.status := "scheduled";
                                    Game.venue_id := Venue.venue_id v |}];
            results := results d; venues_seq := venues_seq d;
            players_seq := players_seq d; games_seq := games_seq d + 1 |}.
Proof.
  unfold create_game. destruct (fetchone _) as [v |] eqn:Hv; [| by left].
  destruct (has_nul _) eqn:Hnul; [by left |]. right.
  apply head_Some_elem_of, list_elem_of_filter in Hv as [Hid Hv]. by exists v.
Qed.

Lemma create_player_cases now player d :
  snd (create_player now player d) = d ∨
  (no_nul (PlayerCreate.display_name player) ∧
   filter (λ p, lower (Player.display_name p)
                = lower (PlayerCreate.display_name player)) (players d) = [] ∧
   snd (create_player now player d)
   = {| venues := venues d;
        players := players d ++ [{| Player.player_id := players_seq d;
                                    Player.display_name := PlayerCreate.display_name player;
                                    Player.avatar_url := PlayerCreate.avatar_url player;
                                    Player.created_at := Some now |}];
        games := games d; results := results d; venues_seq := venues_seq d;
        players_seq := players_seq d + 1; games_seq := games_seq d |}).
Proof.
  unfold create_player. destruct (has_nul _) eqn:Hnul; [by left |].
  destruct (fetchone _) eqn:Hfetch; [by left |].
  destruct (from_option _ _ _); [by left |]. right. by apply head_None in Hfetch.
Qed.

Lemma create_venue_cases now venue d :
  snd (create_venue now venue d) = d ∨
  (no_nul (VenueCreate.venue_name venue) ∧
   filter (λ v, lower (Venue.venue_name v)
                = lower (VenueCreate.venue_name venue)) (venues d) = [] ∧
   snd (create_venue now venue d)
   = {| venues := venues d ++ [{| Venue.venue_id := venues_seq d;
                                  Venue.venue_name := VenueCreate.venue_name venue;
                                  Venue.address := VenueCreate.address venue;
                                  Venue.city := VenueCreate.city venue;
                                  Venue.state := VenueCreate.state venue;
                                  Venue.created_at := Some now |}];
        players := players d; games := games d; results := results d;
        venues_seq := venues_seq d + 1; players_seq := players_seq d;
        games_seq := games_seq d |}).
Proof.
  unfold create_venue. destruct (has_nul _) eqn:Hnul; [by left |].
  destruct (fetchone _) eqn:Hfetch; [by left |].
  destruct (_ || _); [by left |]. right. by apply head_None in Hfetch.
Qed.

Lemma create_game_schema_ok game d :
  schema_ok d → schema_ok (snd (create_game game d)).
Proof.
  intros Hd. destruct (create_game_cases game d) as [-> | (v & Hv & _ & _ & ->)];
    [done |].
  destruct Hd as [Hnd Href Hgames]. split; simpl.
  - done.
  - eapply Forall_impl; [exact Href |]. intros r. apply references_ok_mono; [| done].
    intros x. unfold game_exists. simpl. rewrite fmap_app, elem_of_app. auto.
  - apply Forall_app. split; [done |]. apply Forall_singleton.
    unfold venue_exists. simpl. by apply list_elem_of_fmap_2.
Qed.

Lemma create_player_schema_ok now player d :
  schema_ok d → schema_ok (snd (create_player now player d)).
Proof.
  intros Hd. destruct (create_player_cases now player d) as [-> | (_ & _ & ->)];
    [done |].
  destruct Hd as [Hnd Href Hgames]. split; simpl; [done | | done].
  eapply Forall_impl; [exact Href |]. intros r. apply references_ok_mono; [done |].
  intros x. unfold player_exists. simpl. rewrite fmap_app, elem_of_app. auto.
Qed.

Lemma create_venue_schema_ok now venue d :
  schema_ok d → schema_ok (snd (create_venue now venue d)).
Proof.
  intros Hd. destruct (create_venue_cases now venue d) as [-> | (_ & _ & ->)];
    [done |].
  destruct Hd as [Hnd Href Hgames]. split; simpl; [done | done |].
  eapply Forall_impl; [exact Hgames |]. intros g.
  unfold venue_exists. simpl. rewrite fmap_app, elem_of_app. auto.
Qed.

Lemma list_games_state limit venue d : snd (list_games limit venue d) = d.
Proof. unfold list_games. case_bool_decide; [| done]. by destruct (where_name_like _). Qed.

Lemma list_players_state limit q d : snd (list_players limit q d) = d.
Proof. unfold list_players. case_bool_decide; [| done]. by destruct (where_name_like _). Qed.

Lemma list_venues_state limit q d : snd (list_venues limit q d) = d.
Proof. unfold list_venues. case_bool_decide; [| done]. by destruct (where_name_like _). Qed.

Lemma get_game_state game_id d : snd (get_game game_id d) = d.
Proof. unfold get_game. by destruct (fetchone _) as [[g v] |]. Qed.

Lemma handle_schema_ok now req d : schema_ok d → schema_ok (snd (handle now req d)).
Proof.
  intros Hd. destruct req; simpl.
  - by rewrite list_games_state.
  - by rewrite get_game_state.
  - done.
  - by apply create_game_schema_ok.
  - by apply add_results_schema_ok.
  - by rewrite list_players_state.
  - by apply create_player_schema_ok.
  - by rewrite list_venues_state.
  - by apply create_venue_schema_ok.
Qed.

Lemma run_schema_ok reqs d : schema_ok d → schema_ok (run reqs d).
Proof.
  revert d. induction reqs as [|[now req] reqs IH]; intros d Hd; simpl; [done |].
  by apply IH, handle_schema_ok.
Qed.

Lemma reachable_schema_ok d : reachable d → schema_ok d.
Proof. intros [reqs ->]. apply run_schema_ok, schema_ok_empty. Qed.

Lemma scenario_reachable : reachable scenario_db.
Proof. by exists scenario. Qed.

(** ** Results *)

Lemma unique_key_at_most_one {A K : Type} `{!EqDecision K} (f : A → K) (k : K)
    (l : list A) :
  NoDup (f <$> l) → (length (filter (λ x, f x = k) l) ≤ 1)%nat.
Proof.
  induction l as [|x l IH]; [simpl; lia |].
  rewrite fmap_cons. intros [Hx Hnd]%NoDup_cons.
  destruct (decide (f x = k)) as [<- | Hk].
  - rewrite filter_cons_True by done. rewrite (filter_none _ l); [simpl; lia |].
    intros y Hy Hfy. apply Hx. rewrite <- Hfy. by apply list_elem_of_fmap_2.
  - rewrite filter_cons_False by done. by apply IH.
Qed.

Lemma insert_results_refused game_id rs d :
  game_exists game_id d → ¬ Forall (λ r, players_exist r d) rs →
  fst (insert_results game_id rs d) = None.
Proof.
  intros Hg. revert d Hg. induction rs as [|r rs IH]; intros d Hg Hrs.
  - by destruct Hrs.
  - simpl. unfold upsert_result. case_decide as Hok; [| done].
    apply (IH (with_results d (upsert_rows (result_values game_id r) (results d))));
      [exact Hg |].
    intros Hall. apply Hrs. constructor; [| exact Hall].
    destruct Hok as (_ & Hp & He). by split.
Qed.

(** C1, as the handler has it: in every state the service reaches there is
    at most one result row per (game, player) pair; and when a row is
    submitted for a game and a player that exist, with an eliminating player
    who exists when one is named, and a row for the same player is submitted
    again, the pair has exactly one row afterwards, which holds the rank,
    points, knockouts and eliminating player of the second submission. *)
Theorem resubmission_overwrites (d : db) :
  reachable d →
  (∀ game_id player_id, (length (results_of game_id player_id d) ≤ 1)%nat) ∧
  (∀ game_id r1 r2,
     game_exists game_id d → players_exist r1 d → players_exist r2 d →
     ResultCreate.player_id r2 = ResultCreate.player_id r1 →
     let d1 := snd (add_results game_id [r1] d) in
     let d2 := snd (add_results game_id [r2] d1) in
     results_of game_id (ResultCreate.player_id r1) d2
     = [{| Result.game_id := game_id;
           Result.finish_rank := ResultCreate.finish_rank r2;
           Result.player_id := ResultCreate.player_id r1;
           Result.points := ResultCreate.points r2;
           Result.kos := ResultCreate.kos r2;
           Result.eliminated_by_player_id := ResultCreate.eliminated_by_player_id r2 |}]).
Proof.
  intros [Hnd _ _]%reachable_schema_ok. split.
  - intros game_id player_id. by apply unique_key_at_most_one.
  - intros game_id r1 r2 Hg H1 H2 Hsame d1 d2. subst d1 d2.
    rewrite (add_results_accepted game_id [r1] d);
      [| exact Hg | apply Forall_singleton; exact H1].
    rewrite add_results_accepted;
      [| exact Hg | apply Forall_singleton; exact H2].
    unfold results_of. simpl. rewrite <- Hsame.
    apply (upsert_rows_same (result_values game_id r2)).
    by apply upsert_rows_NoDup.
Qed.

Lemma resubmission_overwrites_witness :
  let r := {| ResultCreate.finish_rank := 1; ResultCreate.player_id := 1;
              ResultCreate.points := 10; ResultCreate.kos := 2;
              ResultCreate.eliminated_by_player_id := None |} in
  reachable scenario_db ∧ game_exists 1 scenario_db ∧ players_exist r scenario_db ∧
  results_of 1 1 (snd (add_results 1 [r] (snd (add_results 1 [r] scenario_db))))
  = [{| Result.game_id := 1; Result.finish_rank := 1; Result.player_id := 1;
        Result.points := 10; Result.kos := 2;
        Result.eliminated_by_player_id := None |}].
Proof.
  intros r.
  assert (Hg : game_exists 1 scenario_db) by compute_done.
  assert (Hr : players_exist r scenario_db) by compute_done.
  split_and!; [exact scenario_reachable | exact Hg | exact Hr |].
  exact (proj2 (resubmission_overwrites scenario_db scenario_reachable)
           1 r r Hg Hr Hr eq_refl).
Defined.

(** C1 as the specification words it fails on a row whose eliminating
    player does not exist: the game and the player exist, the database
    refuses both submissions, and the pair keeps the row it had. *)
Lemma resubmission_missing_eliminator_counterexample :
  let r := {| ResultCreate.finish_rank := 7; ResultCreate.player_id := 1;
              ResultCreate.points := 10; ResultCreate.kos := 2;
              ResultCreate.eliminated_by_player_id := Some 9 |} in
  game_exists 1 scenario_db ∧ player_exists 1 scenario_db ∧
  results_of 1 1 (snd (add_results 1 [r] (snd (add_results 1 [r] scenario_db))))
  ≠ [{| Result.game_id := 1; Result.finish_rank := 7; Result.player_id := 1;
        Result.points := 10; Result.kos := 2;
        Result.eliminated_by_player_id := Some 9 |}].
Proof.
  intros r. split_and!; [compute_done | compute_done |].
  vm_compute. discriminate.
Qed.

(** C7, as the handler has it: on a game that exists, when every submitted
    row names players that exist, the response reports the number of rows
    submitted, whether they were inserted, overwritten or repeated; when
    some row does not, the database refuses a statement and the request
    ends in a server error. *)
Theorem add_results_counts_submitted (d : db) (game_id : Z) (rs : list ResultCreate.t) :
  game_exists game_id d →
  (Forall (λ r, players_exist r d) rs →
   fst (add_results game_id rs d)
   = Ok (JObj [("game_id", JInt game_id);
               ("inserted_results", JInt (Z.of_nat (length rs)))])) ∧
  (¬ Forall (λ r, players_exist r d) rs →
   fst (add_results game_id rs d) = InternalServerError).
Proof.
  intros Hg. split.
  - intros Hrs. by rewrite add_results_accepted.
  - intros Hrs. unfold add_results.
    destruct (game_exists_fetchone game_id d Hg) as [g ->].
    pose proof (insert_results_refused game_id rs d Hg Hrs) as Hnone.
    by destruct (insert_results game_id rs d) as [[[] |] d'].
Qed.

Lemma add_results_counts_submitted_witness :
  let r := {| ResultCreate.finish_rank := 1; ResultCreate.player_id := 1;
              ResultCreate.points := 10; ResultCreate.kos := 2;
              ResultCreate.eliminated_by_player_id := None |} in
  game_exists 1 scenario_db ∧ Forall (λ r, players_exist r scenario_db) [r; r; r] ∧
  fst (add_results 1 [r; r; r] scenario_db)
  = Ok (JObj [("game_id", JInt 1); ("inserted_results", JInt 3)]).
Proof.
  intros r.
  assert (Hg : game_exists 1 scenario_db) by compute_done.
  assert (Hr : Forall (λ r, players_exist r scenario_db) [r; r; r]) by compute_done.
  split_and!; [exact Hg | exact Hr |].
  exact (proj1 (add_results_counts_submitted scenario_db 1 [r; r; r] Hg) Hr).
Defined.

(** C7 as the specification words it fails on a call that names a player
    who does not exist: the game exists, and the response is a server error
    instead of the count. *)
Lemma add_results_missing_player_counterexample :
  let r := {| ResultCreate.finish_rank := 6; ResultCreate.player_id := 9;
              ResultCreate.points := 0; ResultCreate.kos := 0;
              ResultCreate.eliminated_by_player_id := None |} in
  game_exists 1 scenario_db ∧
  fst (add_results 1 [r] scenario_db) = InternalServerError ∧
  fst (add_results 1 [r] scenario_db)
  ≠ Ok (JObj [("game_id", JInt 1); ("inserted_results", JInt 1)]).
Proof. intros r. split; [compute_done |]. by vm_compute. Qed.

(** C10, as the handler has it: one call applies its rows in the order of
    the sequence, so when every row names players that exist, a call on a
    sequence is the call on its first part followed by the call on the
    rest, and each player named in it ends with exactly one row for the
    game, holding the rank, points, knockouts and eliminating player of the
    last row submitted for that player. *)
Theorem last_submitted_row_wins (d : db) (game_id : Z) (rs : list ResultCreate.t) :
  reachable d → game_exists game_id d → Forall (λ r, players_exist r d) rs →
  (∀ rs1 rs2, rs = rs1 ++ rs2 →
     snd (add_results game_id rs d)
     = snd (add_results game_id rs2 (snd (add_results game_id rs1 d)))) ∧
  (∀ player_id r,
     last (filter (λ r, ResultCreate.player_id r = player_id) rs) = Some r →
     results_of game_id player_id (snd (add_results game_id rs d))
     = [{| Result.game_id := game_id;
           Result.finish_rank := ResultCreate.finish_rank r;
           Result.player_id := player_id;
           Result.points := ResultCreate.points r;
           Result.kos := ResultCreate.kos r;
           Result.eliminated_by_player_id := ResultCreate.eliminated_by_player_id r |}]).
Proof.
  intros [Hnd _ _]%reachable_schema_ok Hg Hrs. split.
  - intros rs1 rs2 ->. apply Forall_app in Hrs as [Hrs1 Hrs2].
    rewrite (add_results_accepted game_id (rs1 ++ rs2));
      [| exact Hg | by apply Forall_app].
    rewrite (add_results_accepted game_id rs1 d) by done.
    rewrite add_results_accepted; [| exact Hg | exact Hrs2].
    unfold upsert_all. simpl. by rewrite foldl_app.
  - intros player_id r Hlast. rewrite add_results_accepted by done.
    unfold results_of. simpl. rewrite upsert_all_last by done. rewrite Hlast. simpl.
    apply last_Some_elem_of, list_elem_of_filter in Hlast as [<- _]. done.
Qed.

Lemma last_submitted_row_wins_witness :
  let r1 := {| ResultCreate.finish_rank := 1; ResultCreate.player_id := 2;
               ResultCreate.points := 10; ResultCreate.kos := 2;
               ResultCreate.eliminated_by_player_id := None |} in
  let r2 := {| ResultCreate.finish_rank := 3; ResultCreate.player_id := 1;
               ResultCreate.points := 5; ResultCreate.kos := 0;
               ResultCreate.eliminated_by_player_id := Some 2 |} in
  let r3 := {| ResultCreate.finish_rank := 4; ResultCreate.player_id := 2;
               ResultCreate.points := 0; ResultCreate.kos := 0;
               ResultCreate.eliminated_by_player_id := Some 1 |} in
  reachable scenario_db ∧ game_exists 1 scenario_db ∧
  Forall (λ r, players_exist r scenario_db) [r1; r2; r3] ∧
  results_of 1 2 (snd (add_results 1 [r1; r2; r3] scenario_db))
  = [{| Result.game_id := 1; Result.finish_rank := 4; Result.player_id := 2;
        Result.points := 0; Result.kos := 0;
        Result.eliminated_by_player_id := Some 1 |}].
Proof.
  intros r1 r2 r3.
  assert (Hg : game_exists 1 scenario_db) by compute_done.
  assert (Hrs : Forall (λ r, players_exist r scenario_db) [r1; r2; r3]) by compute_done.
  split_and!; [exact scenario_reachable | exact Hg | exact Hrs |].
  exact (proj2 (last_submitted_row_wins scenario_db 1 [r1; r2; r3]
                  scenario_reachable Hg Hrs) 2 r3 eq_refl).
Defined.

(** C10 as the specification words it fails when the last row for a player
    names an eliminating player who does not exist: the database refuses
    that row, and the pair keeps the values of the row before it. *)
Lemma last_row_refused_counterexample :
  let r1 := {| ResultCreate.finish_rank := 1; ResultCreate.player_id := 2;
               ResultCreate.points := 10; ResultCreate.kos := 2;
               ResultCreate.eliminated_by_player_id := None |} in
  let r2 := {| ResultCreate.finish_rank := 4; ResultCreate.player_id := 2;
               ResultCreate.points := 0; ResultCreate.kos := 0;
               ResultCreate.eliminated_by_player_id := Some 9 |} in
  game_exists 1 scenario_db ∧
  last (filter (λ r, ResultCreate.player_id r = 2) [r1; r2]) = Some r2 ∧
  results_of 1 2 (snd (add_results 1 [r1; r2] scenario_db))
  = [{| Result.game_id := 1; Result.finish_rank := 1; Result.player_id := 2;
        Result.points := 10; Result.kos := 2;
        Result.eliminated_by_player_id := None |}] ∧
  results_of 1 2 (snd (add_results 1 [r1; r2] scenario_db))
  ≠ [{| Result.game_id := 1; Result.finish_rank := 4; Result.player_id := 2;
        Result.points := 0; Result.kos := 0;
        Result.eliminated_by_player_id := Some 9 |}].
Proof.
  intros r1 r2. split_and!; [compute_done | by vm_compute | by vm_compute |].
  vm_compute. discriminate.
Qed.

(** The count is that of the rows submitted, not of the rows written:
    three rows for one player leave one row. *)
Example add_results_repeated_rows :
  let r := {| ResultCreate.finish_rank := 1; ResultCreate.player_id := 1;
              ResultCreate.points := 10; ResultCreate.kos := 2;
              ResultCreate.eliminated_by_player_id := None |} in
  let out := add_results 1 [r; r; r] scenario_db in
  fst out = Ok (JObj [("game_id", JInt 1); ("inserted_results", JInt 3)]) ∧
  length (results (snd out)) = length (results scenario_db).
Proof. by vm_compute. Qed.

(** ** A game that does not exist *)

Lemma games_join_venues_game row d :
  row ∈ games_join_venues d → game_exists (Game.game_id (fst row)) d.
Proof.
  unfold games_join_venues.
  intros (g & (v & Hrow & _)%list_elem_of_bind & Hg)%list_elem_of_bind.
  apply list_elem_of_singleton in Hrow as ->. by apply list_elem_of_fmap_2.
Qed.

Lemma select_leaderboard_unknown_game game_id d :
  schema_ok d → ¬ game_exists game_id d → select_leaderboard game_id d = [].
Proof.
  intros [_ Href _] Hno. unfold select_leaderboard.
  rewrite (filter_none _ (results d)); [done |].
  intros r Hr Hid. apply Hno. rewrite <- Hid.
  rewrite Forall_forall in Href. by destruct (Href r Hr).
Qed.

(** C3: for a game that does not exist, [get_game] fails with status 404
    while [game_results] answers 200 with an empty list. *)
Theorem unknown_game_asymmetry (d : db) (game_id : Z) :
  reachable d → ¬ game_exists game_id d →
  get_game game_id d
  = (HTTPException 404 ("Game " +:+ str game_id +:+ " not found"), d) ∧
  game_results game_id d = (Ok (JList []), d).
Proof.
  intros Hd%reachable_schema_ok Hno. split.
  - unfold get_game. rewrite fetchone_filter_None; [done |].
    intros row Hrow Hid. apply Hno. rewrite <- Hid.
    by apply games_join_venues_game.
  - unfold game_results. by rewrite select_leaderboard_unknown_game.
Qed.

Lemma unknown_game_asymmetry_witness :
  reachable scenario_db ∧ ¬ game_exists 2 scenario_db ∧
  get_game 2 scenario_db = (HTTPException 404 "Game 2 not found", scenario_db) ∧
  game_results 2 scenario_db = (Ok (JList []), scenario_db).
Proof.
  assert (Hno : ¬ game_exists 2 scenario_db) by compute_done.
  split_and!; [exact scenario_reachable | exact Hno | |];
    apply (unknown_game_asymmetry scenario_db 2 scenario_reachable Hno).
Defined.

(** ** Names are unique up to letter case *)

Lemma handle_tables_grow now req d :
  let d' := snd (handle now req d) in
  (∀ v, v ∈ venues d → v ∈ venues d') ∧ (∀ p, p ∈ players d → p ∈ players d').
Proof.
  destruct req as [| | | game | game_id rs | | player | | venue]; simpl.
  - by rewrite list_games_state.
  - by rewrite get_game_state.
  - done.
  - by destruct (create_game_cases game d) as [-> | (v & _ & _ & _ & ->)].
  - unfold add_results. destruct (fetchone _); [| done].
    destruct (insert_results_tables game_id rs d) as (Hv & Hp & _).
    destruct (insert_results game_id rs d) as [[[] |] d']; simpl in *;
      by rewrite Hv, Hp.
  - by rewrite list_players_state.
  - destruct (create_player_cases now player d) as [-> | (_ & _ & ->)]; [done |].
    simpl. split; [done |]. intros p Hp. apply elem_of_app. by left.
  - by rewrite list_venues_state.
  - destruct (create_venue_cases now venue d) as [-> | (_ & _ & ->)]; [done |].
    simpl. split; [| done]. intros v Hv. apply elem_of_app. by left.
Qed.

Lemma run_tables_grow reqs d :
  (∀ v, v ∈ venues d → v ∈ venues (run reqs d)) ∧
  (∀ p, p ∈ players d → p ∈ players (run reqs d)).
Proof.
  revert d. induction reqs as [|[now req] reqs IH]; intros d; simpl; [done |].
  destruct (handle_tables_grow now req d) as [Hv Hp].
  destruct (IH (snd (handle now req d))) as [Hv' Hp']. split; auto.
Qed.

Lemma same_case_no_nul a b : same_ignoring_case a b → no_nul b → no_nul a.
Proof.
  unfold same_ignoring_case, no_nul. intros Hcase Hb.
  by rewrite <- has_nul_lower, Hcase, has_nul_lower.
Qed.

(** The tables hold no name with U+0000: no creation gets one past the
    driver. *)
Lemma handle_names_text_ok now req d :
  names_text_ok d → names_text_ok (snd (handle now req d)).
Proof.
  intros [Hv Hp]. destruct req as [| | | game | game_id rs | | player | | venue]; simpl.
  - by rewrite list_games_state.
  - by rewrite get_game_state.
  - done.
  - by destruct (create_game_cases game d) as [-> | (v & _ & _ & _ & ->)].
  - unfold add_results. destruct (fetchone _); [| done].
    destruct (insert_results_tables game_id rs d) as (Hv' & Hp' & _).
    unfold names_text_ok.
    destruct (insert_results game_id rs d) as [[[] |] d']; simpl in *;
      by rewrite Hv', Hp'.
  - by rewrite list_players_state.
  - destruct (create_player_cases now player d) as [-> | (Hnul & _ & ->)]; [done |].
    split; [done |]. simpl. apply Forall_app. split; [done |]. by apply Forall_singleton.
  - by rewrite list_venues_state.
  - destruct (create_venue_cases now venue d) as [-> | (Hnul & _ & ->)]; [done |].
    split; [| done]. simpl. apply Forall_app. split; [done |]. by apply Forall_singleton.
Qed.

Lemma run_names_text_ok reqs d : names_text_ok d → names_text_ok (run reqs d).
Proof.
  revert d. induction reqs as [|[now req] reqs IH]; intros d Hd; simpl; [done |].
  by apply IH, handle_names_text_ok.
Qed.

Lemma reachable_names_text_ok d : reachable d → names_text_ok d.
Proof. intros [reqs ->]. apply run_names_text_ok. split; constructor. Qed.

Lemma create_venue_conflict now venue d v :
  v ∈ venues d → no_nul (Venue.venue_name v) →
  same_ignoring_case (VenueCreate.venue_name venue) (Venue.venue_name v) →
  create_venue now venue d
  = (HTTPException 409
       ("venue '" +:+ VenueCreate.venue_name venue +:+ "' already exists"), d).
Proof.
  intros Hv Hnul Hcase. unfold create_venue.
  rewrite (same_case_no_nul _ _ Hcase Hnul).
  destruct (fetchone_filter_Some
              (λ v', lower (Venue.venue_name v') = lower (VenueCreate.venue_name venue))
              (venues d) v) as (v' & -> & _); done.
Qed.

Lemma create_player_conflict now player d p :
  p ∈ players d → no_nul (Player.display_name p) →
  same_ignoring_case (PlayerCreate.display_name player) (Player.display_name p) →
  create_player now player d
  = (HTTPException 409
       ("player '" +:+ PlayerCreate.display_name player +:+ "' already exists"), d).
Proof.
  intros Hp Hnul Hcase. unfold create_player.
  rewrite (same_case_no_nul _ _ Hcase Hnul).
  destruct (fetchone_filter_Some
              (λ p', lower (Player.display_name p')
                     = lower (PlayerCreate.display_name player))
              (players d) p) as (p' & -> & _); done.
Qed.

(** A creation that answers 200 leaves a row of that name in the table. *)
Lemma create_venue_named now venue d body :
  fst (create_venue now venue d) = Ok body →
  ∃ v, v ∈ venues (snd (create_venue now venue d)) ∧
       Venue.venue_name v = VenueCreate.venue_name venue ∧
       no_nul (Venue.venue_name v).
Proof.
  unfold create_venue. destruct (has_nul _) eqn:Hnul; [done |].
  destruct (fetchone _); [done |]. destruct (_ || _); [done |]. intros _.
  eexists. split; [simpl; apply elem_of_app; right; by left | done].
Qed.

Lemma create_player_named now player d body :
  fst (create_player now player d) = Ok body →
  ∃ p, p ∈ players (snd (create_player now player d)) ∧
       Player.display_name p = PlayerCreate.display_name player ∧
       no_nul (Player.display_name p).
Proof.
  unfold create_player. destruct (has_nul _) eqn:Hnul; [done |].
  destruct (fetchone _); [done |]. destruct (from_option _ _ _); [done |]. intros _.
  eexists. split; [simpl; apply elem_of_app; right; by left | done].
Qed.

(** C4: in every state the service reaches, creating a venue, or a player,
    whose name equals the name of an existing one up to letter case fails
    with status 409, the detail quotes the submitted name, and the database
    is unchanged; and once a creation has answered 200, every later
    creation under a name equal to its name up to letter case fails so,
    whatever requests were served in between. *)
Theorem duplicate_name_conflict (d : db) (now : datetime) :
  reachable d →
  (∀ venue v,
     v ∈ venues d →
     same_ignoring_case (VenueCreate.venue_name venue) (Venue.venue_name v) →
     create_venue now venue d
     = (HTTPException 409
          ("venue '" +:+ VenueCreate.venue_name venue +:+ "' already exists"), d)) ∧
  (∀ player p,
     p ∈ players d →
     same_ignoring_case (PlayerCreate.display_name player) (Player.display_name p) →
     create_player now player d
     = (HTTPException 409
          ("player '" +:+ PlayerCreate.display_name player +:+ "' already exists"), d)) ∧
  (∀ now0 venue0 body reqs venue,
     fst (create_venue now0 venue0 d) = Ok body →
     same_ignoring_case (VenueCreate.venue_name venue) (VenueCreate.venue_name venue0) →
     let d' := run reqs (snd (create_venue now0 venue0 d)) in
     create_venue now venue d'
     = (HTTPException 409
          ("venue '" +:+ VenueCreate.venue_name venue +:+ "' already exists"), d')) ∧
  (∀ now0 player0 body reqs player,
     fst (create_player now0 player0 d) = Ok body →
     same_ignoring_case (PlayerCreate.display_name player)
       (PlayerCreate.display_name player0) →
     let d' := run reqs (snd (create_player now0 player0 d)) in
     create_player now player d'
     = (HTTPException 409
          ("player '" +:+ PlayerCreate.display_name player +:+ "' already exists"), d')).
Proof.
  intros [Hvenues Hplayers]%reachable_names_text_ok.
  rewrite Forall_forall in Hvenues. rewrite Forall_forall in Hplayers.
  split_and!.
  - intros venue v Hv. apply create_venue_conflict; auto.
  - intros player p Hp. apply create_player_conflict; auto.
  - intros now0 venue0 body reqs venue Hok Hcase d'.
    destruct (create_venue_named now0 venue0 d body Hok) as (v & Hv & Hname & Hnul).
    apply (create_venue_conflict now venue d' v); [| done | by rewrite Hname].
    by apply run_tables_grow.
  - intros now0 player0 body reqs player Hok Hcase d'.
    destruct (create_player_named now0 player0 d body Hok) as (p & Hp & Hname & Hnul).
    apply (create_player_conflict now player d' p); [| done | by rewrite Hname].
    by apply run_tables_grow.
Qed.

Lemma duplicate_name_conflict_witness :
  let venue := {| VenueCreate.venue_name := "THE spot"; VenueCreate.address := None;
                  VenueCreate.city := "Atlanta"; VenueCreate.state := "GA" |} in
  let v := {| Venue.venue_id := 1; Venue.venue_name := "The Spot";
              Venue.address := None; Venue.city := "Atlanta"; Venue.state := "GA";
              Venue.created_at := Some 10 |} in
  reachable scenario_db ∧
  v ∈ venues scenario_db ∧ same_ignoring_case "THE spot" "The Spot" ∧
  create_venue 20 venue scenario_db
  = (HTTPException 409 "venue 'THE spot' already exists", scenario_db).
Proof.
  intros venue v.
  assert (Hv : v ∈ venues scenario_db) by (vm_compute; left).
  assert (Hcase : same_ignoring_case (VenueCreate.venue_name venue) (Venue.venue_name v))
    by reflexivity.
  refine (conj scenario_reachable (conj Hv (conj Hcase _))).
  exact (proj1 (duplicate_name_conflict scenario_db 20 scenario_reachable)
           venue v Hv Hcase).
Defined.

(** * Further properties of the handlers *)

(** ** Listings: bounds and order *)

Lemma Sorted_take {A : Type} (R : relation A) (l : list A) (n : nat) :
  Sorted R l → Sorted R (take n l).
Proof.
  intros Hl. revert n. induction Hl as [|x l Hl IH Hhd]; intros [|n]; simpl;
    try constructor; auto.
  destruct Hhd, n; simpl; constructor; auto.
Qed.

Lemma sql_limit_length {A : Type} (n : Z) (rows : list A) :
  0 ≤ n → Z.of_nat (length (sql_limit n rows)) ≤ n.
Proof. intros Hn. unfold sql_limit. rewrite length_take. lia. Qed.

Lemma limited_listing {A : Type} (k : A → option Z) (P : A → Prop)
    `{!∀ x, Decision (P x)} (table : list A) (n : Z) :
  let rows := sql_limit n (order_by_desc k (filter P table)) in
  Sorted (by_desc k) rows ∧ rows ⊆+ table ∧ Forall P rows.
Proof.
  intros rows. subst rows. unfold sql_limit, order_by_desc.
  pose proof (by_desc_total k).
  assert (Hsub : take (Z.to_nat n) (stable_sort (by_desc k) (filter P table))
                 ⊆+ filter P table).
  { etrans; [apply sublist_submseteq, sublist_take |].
    apply Permutation_submseteq, stable_sort_Permutation. }
  split_and!.
  - apply Sorted_take. by apply Sorted_stable_sort.
  - etrans; [exact Hsub |]. apply sublist_submseteq, sublist_filter.
  - apply Forall_forall. intros x Hx.
    eapply elem_of_submseteq in Hx; [| exact Hsub].
    by apply list_elem_of_filter in Hx as [? _].
Qed.

(** X1: each listing checks its limit before it queries: outside 1..200
    for games and 1..500 for players and venues the request is refused and
    nothing is read.  Inside, a filter the driver accepts (absent, or
    without U+0000) gives a list of at most [limit] entries, wildcards and
    backslashes included; a filter that holds U+0000 ends the request in a
    server error. *)
Theorem listing_limit (d : db) (limit : option Z) (q : option string) :
  (¬ 1 ≤ default 20 limit ≤ 200 → list_games limit q d = (RequestValidationError, d)) ∧
  (¬ 1 ≤ default 50 limit ≤ 500 →
   list_players limit q d = (RequestValidationError, d) ∧
   list_venues limit q d = (RequestValidationError, d)) ∧
  (from_option no_nul True q →
   (1 ≤ default 20 limit ≤ 200 →
    ∃ items, list_games limit q d = (Ok (JList items), d) ∧
             Z.of_nat (length items) ≤ default 20 limit) ∧
   (1 ≤ default 50 limit ≤ 500 →
    (∃ items, list_players limit q d = (Ok (JList items), d) ∧
              Z.of_nat (length items) ≤ default 50 limit) ∧
    (∃ items, list_venues limit q d = (Ok (JList items), d) ∧
              Z.of_nat (length items) ≤ default 50 limit))) ∧
  (¬ from_option no_nul True q →
   (1 ≤ default 20 limit ≤ 200 → list_games limit q d = (InternalServerError, d)) ∧
   (1 ≤ default 50 limit ≤ 500 →
    list_players limit q d = (InternalServerError, d) ∧
    list_venues limit q d = (InternalServerError, d))).
Proof.
  unfold list_games, list_players, list_venues. split_and!.
  - intros Hl. by rewrite bool_decide_eq_false_2.
  - intros Hl. by rewrite bool_decide_eq_false_2.
  - intros Hq. destruct (where_name_like_is_Some q Hq) as [like ->]. split.
    + intros Hl. rewrite bool_decide_eq_true_2 by done.
      eexists. split; [reflexivity |]. rewrite length_fmap. apply sql_limit_length. lia.
    + intros Hl. rewrite bool_decide_eq_true_2 by done.
      split; (eexists; split; [reflexivity |]);
        rewrite length_fmap; apply sql_limit_length; lia.
  - intros Hq. destruct q as [s |]; [| by destruct Hq]. simpl in Hq.
    apply not_false_iff_true in Hq. rewrite (where_name_like_nul s Hq).
    split; intros Hl; by rewrite bool_decide_eq_true_2.
Qed.

Lemma listing_limit_witness :
  1 ≤ default 50 (Some 1) ≤ 500 ∧ ¬ 1 ≤ default 20 (Some 201) ≤ 200 ∧
  from_option no_nul True (Some "\") ∧
  ¬ from_option no_nul True (Some (String "000" "a")) ∧
  (∃ items, list_venues (Some 1) (Some "\") scenario_db = (Ok (JList items), scenario_db) ∧
            Z.of_nat (length items) ≤ 1) ∧
  list_venues (Some 1) (Some (String "000" "a")) scenario_db
  = (InternalServerError, scenario_db) ∧
  list_games (Some 201) None scenario_db = (RequestValidationError, scenario_db).
Proof.
  assert (H1 : 1 ≤ default 50 (Some 1) ≤ 500) by (simpl; lia).
  assert (H2 : ¬ 1 ≤ default 20 (Some 201) ≤ 200) by (simpl; lia).
  assert (H3 : from_option no_nul True (Some "\")) by reflexivity.
  assert (H4 : ¬ from_option no_nul True (Some (String "000" "a"))) by discriminate.
  refine (conj H1 (conj H2 (conj H3 (conj H4 (conj _ (conj _ _)))))).
  - exact (proj2 (proj2 (proj1 (proj2 (proj2
             (listing_limit scenario_db (Some 1) (Some "\")))) H3) H1)).
  - exact (proj2 (proj2 (proj2 (proj2 (proj2
             (listing_limit scenario_db (Some 1) (Some (String "000" "a")))))
             H4) H1)).
  - exact (proj1 (listing_limit scenario_db (Some 201) None) H2).
Defined.

(** X2: the players and the venues listed are rows of the table, each at
    most as often as the table has it, newest first by [created_at], for
    every filter the driver accepts. *)
Theorem listing_newest_first (d : db) (limit : option Z) (q : option string) :
  1 ≤ default 50 limit ≤ 500 → from_option no_nul True q →
  (∃ rows, list_players limit q d = (Ok (JList (player_json <$> rows)), d) ∧
           Sorted (by_desc Player.created_at) rows ∧ rows ⊆+ players d) ∧
  (∃ rows, list_venues limit q d = (Ok (JList (venue_json <$> rows)), d) ∧
           Sorted (by_desc Venue.created_at) rows ∧ rows ⊆+ venues d).
Proof.
  intros Hl Hq. destruct (where_name_like_is_Some q Hq) as [like Hlike].
  unfold list_players, list_venues. rewrite Hlike, bool_decide_eq_true_2 by done.
  split; (eexists; split; [reflexivity |]).
  - by destruct (limited_listing Player.created_at
                   (λ p, like (Player.display_name p)) (players d) (default 50 limit))
      as (? & ? & _).
  - by destruct (limited_listing Venue.created_at
                   (λ v, like (Venue.venue_name v)) (venues d) (default 50 limit))
      as (? & ? & _).
Qed.

Lemma listing_newest_first_witness :
  1 ≤ default 50 None ≤ 500 ∧ from_option no_nul True (Some "a") ∧
  ∃ rows, list_venues None (Some "a") scenario_db
          = (Ok (JList (venue_json <$> rows)), scenario_db) ∧
          Sorted (by_desc Venue.created_at) rows ∧ rows ⊆+ venues scenario_db.
Proof.
  assert (H : 1 ≤ default 50 None ≤ 500) by (simpl; lia).
  exact (conj H (conj eq_refl
           (proj2 (listing_newest_first scenario_db None (Some "a") H eq_refl)))).
Defined.

Lemma games_join_venues_row row d :
  row ∈ games_join_venues d →
  fst row ∈ games d ∧ snd row ∈ venues d ∧
  Venue.venue_id (snd row) = Game.venue_id (fst row).
Proof.
  unfold games_join_venues.
  intros (g & (v & Hrow & Hv)%list_elem_of_bind & Hg)%list_elem_of_bind.
  apply list_elem_of_singleton in Hrow as ->.
  by apply list_elem_of_filter in Hv as [? ?].
Qed.

(** X3: for every venue filter the driver accepts, the games listed are
    games of the table, each shown with its own title, start time and
    status and with the name of the venue its [venue_id] refers to, latest
    [start_time] first. *)
Theorem list_games_rows (d : db) (limit : option Z) (venue : option string) :
  1 ≤ default 20 limit ≤ 200 → from_option no_nul True venue →
  ∃ rows : list (Game.row * Venue.row),
    list_games limit venue d
    = (Ok (JList ((λ row,
                     JObj [("game_id", JInt (Game.game_id (fst row)));
                           ("game_title", JStr (Game.game_title (fst row)));
                           ("start_time", isoformat_or_none (Game.start_time (fst row)));
                           ("status", JStr (Game.status (fst row)));
                           ("venue_name", JStr (Venue.venue_name (snd row)))])
                    <$> rows)), d) ∧
    Sorted (by_desc (λ row, Game.start_time (fst row))) rows ∧
    ∀ g v, (g, v) ∈ rows →
           g ∈ games d ∧ v ∈ venues d ∧ Venue.venue_id v = Game.venue_id g.
Proof.
  intros Hl Hq. destruct (where_name_like_is_Some venue Hq) as [like Hlike].
  unfold list_games. rewrite Hlike, bool_decide_eq_true_2 by done.
  eexists. split.
  { do 3 f_equal. apply list_fmap_ext. by intros _ [g v] _. }
  destruct (limited_listing (λ row : Game.row * Venue.row, Game.start_time (fst row))
              (λ row, like (Venue.venue_name (snd row))) (games_join_venues d)
              (default 20 limit)) as (Hsorted & Hsub & _).
  split; [done |]. intros g v Hrow.
  eapply elem_of_submseteq in Hrow; [| exact Hsub].
  by apply games_join_venues_row in Hrow.
Qed.

Lemma list_games_rows_witness :
  1 ≤ default 20 None ≤ 200 ∧ from_option no_nul True (Some "spot") ∧
  ∃ rows : list (Game.row * Venue.row),
    Sorted (by_desc (λ row, Game.start_time (fst row))) rows ∧
    ∀ g v, (g, v) ∈ rows → Venue.venue_id v = Game.venue_id g.
Proof.
  assert (H : 1 ≤ default 20 None ≤ 200) by (simpl; lia).
  destruct (list_games_rows scenario_db None (Some "spot") H eq_refl)
    as (rows & _ & Hsorted & Hrows).
  refine (conj H (conj eq_refl (ex_intro _ rows (conj Hsorted _)))).
  intros g v Hin. exact (proj2 (proj2 (Hrows g v Hin))).
Defined.

(** X4: the venue filter of the games listing works as the name filters of
    the other two: a query without [%], [_], backslash and U+0000 selects
    the games whose venue name contains it ignoring case, and the letter
    case of any query does not matter. *)
Theorem list_games_substring (d : db) (limit : option Z) (q : string) :
  1 ≤ default 20 limit ≤ 200 →
  (no_wildcards q → no_nul q → list_games_contains limit q d) ∧
  (∀ q', same_ignoring_case q' q →
         list_games limit (Some q') d = list_games limit (Some q) d).
Proof.
  intros Hl. split.
  - intros Hq Hnul.
    destruct (where_name_like_substring q Hq Hnul) as (like & Hsome & Hlike).
    unfold list_games_contains, list_games.
    rewrite bool_decide_eq_true_2, Hsome by done.
    by apply (lists_containing_intro game_summary
                (λ row : Game.row * Venue.row, Game.start_time (fst row))
                (games_join_venues d) (λ row, Venue.venue_name (snd row))).
  - intros q' Hcase. unfold list_games. by rewrite (where_name_like_case q' q Hcase).
Qed.

Lemma list_games_substring_witness :
  1 ≤ default 20 None ≤ 200 ∧ no_wildcards "SPOT" ∧ no_nul "SPOT" ∧
  same_ignoring_case "spot" "SPOT" ∧
  list_games_contains None "SPOT" scenario_db ∧
  list_games None (Some "spot") scenario_db = list_games None (Some "SPOT") scenario_db.
Proof.
  assert (Hl : 1 ≤ default 20 None ≤ 200) by (simpl; lia).
  assert (Hq : no_wildcards "SPOT").
  { simpl. unfold wildcard. repeat split; intros [|[|]]; discriminate. }
  assert (Hcase : same_ignoring_case "spot" "SPOT") by reflexivity.
  destruct (list_games_substring scenario_db None "SPOT" Hl) as [Hsub Hsame].
  exact (conj Hl (conj Hq (conj eq_refl (conj Hcase
           (conj (Hsub Hq eq_refl) (Hsame "spot" Hcase)))))).
Defined.

(** ** Queries with wildcards *)

Lemma like_match_app ts1 ts2 s1 s2 :
  like_match ts1 s1 = true → like_match ts2 s2 = true →
  like_match (ts1 ++ ts2) (s1 +:+ s2) = true.
Proof.
  intros H1 H2. revert s1 H1. induction ts1 as [|[| |c] ts1 IH]; intros s1 H1.
  - by destruct s1.
  - induction s1 as [|c s1 IHs].
    + rewrite like_match_any_seq in H1. rewrite orb_false_r in H1.
      rewrite append_nil. change ((AnySeq :: ts1) ++ ts2) with (AnySeq :: ts1 ++ ts2).
      rewrite like_match_any_seq. rewrite <- (append_nil s2) at 1.
      by rewrite IH.
    + rewrite like_match_any_seq in H1. apply orb_true_iff in H1.
      change ((AnySeq :: ts1) ++ ts2) with (AnySeq :: ts1 ++ ts2).
      rewrite append_cons, like_match_any_seq. apply orb_true_iff.
      destruct H1 as [H1 | H1].
      * left. rewrite <- append_cons. by apply IH.
      * right. by apply IHs.
  - destruct s1 as [|c s1]; [done |]. rewrite append_cons. simpl. by apply IH.
  - destruct s1 as [|c' s1]; [done |]. rewrite append_cons. simpl in *.
    apply andb_true_iff in H1 as [-> H1]. simpl. by apply IH.
Qed.

Lemma query_tokens_match q : like_match (query_tokens q) q = true.
Proof.
  induction q as [|c q IH]; [done |].
  cbn [query_tokens]. repeat case_decide.
  - rewrite like_match_any_seq. apply orb_true_iff. right.
    rewrite like_match_any_seq. by rewrite IH.
  - done.
  - simpl. by rewrite bool_decide_eq_true_2.
Qed.

Lemma like_tokens_query q rest :
  no_escape q →
  like_tokens (q +:+ rest) = (query_tokens q ++.) <$> like_tokens rest.
Proof.
  induction q as [|c q IH].
  - intros _. rewrite append_nil. by destruct (like_tokens rest).
  - intros [Hc Hq]. rewrite append_cons, like_tokens_cons. cbn [query_tokens].
    rewrite decide_False by done. rewrite IH by done.
    repeat case_decide; by destruct (like_tokens rest).
Qed.

Lemma lower_char_escape c : lower_char c = "\"%char ↔ c = "\"%char.
Proof.
  assert (H : bool_decide (lower_char c = "\"%char ↔ c = "\"%char) = true).
  { destruct c as [[] [] [] [] [] [] [] []]; vm_compute; reflexivity. }
  by apply bool_decide_eq_true in H.
Qed.

Lemma lower_no_escape q : no_escape q → no_escape (lower q).
Proof.
  induction q as [|c q IH]; simpl; [done |].
  intros [Hc Hq]. split; [by rewrite lower_char_escape | auto].
Qed.

(** A query without the escape character selects at least the names that
    contain it. *)
Lemma where_name_like_contains q :
  no_escape q → no_nul q →
  ∃ like, where_name_like (Some q) = Some like ∧
          ∀ name, contains_ignoring_case q name → like name = true.
Proof.
  intros Hq Hnul. destruct q as [|c q]; [by exists (λ _, true) |].
  set (q' := String c q) in *.
  exists (λ name, like_match (AnySeq :: query_tokens (lower q') ++ [AnySeq]) (lower name)).
  split.
  - unfold where_name_like, lower_like. rewrite has_nul_like_pattern, Hnul.
    rewrite lower_like_pattern.
    unfold like_pattern. rewrite append_cons, append_nil, like_tokens_cons.
    rewrite decide_False, decide_True by done.
    rewrite like_tokens_query by by apply lower_no_escape. reflexivity.
  - intros name (pre & post & ->)%occurs_spec.
    apply (like_match_app [AnySeq] _ pre); [apply like_match_trailing_any |].
    apply like_match_app; [apply query_tokens_match | apply like_match_trailing_any].
Qed.

(** X5: wildcards in a query can only add rows.  For a query without a
    backslash and without U+0000, when the table fits within the limit,
    every player and every venue whose name contains the query ignoring
    case is listed. *)
Theorem wildcard_query_keeps_matches (d : db) (limit : option Z) (q : string) :
  no_escape q → no_nul q → 1 ≤ default 50 limit ≤ 500 →
  (Z.of_nat (length (players d)) ≤ default 50 limit →
   ∃ rows, list_players limit (Some q) d = (Ok (JList (player_json <$> rows)), d) ∧
           ∀ p, p ∈ players d → contains_ignoring_case q (Player.display_name p) →
                p ∈ rows) ∧
  (Z.of_nat (length (venues d)) ≤ default 50 limit →
   ∃ rows, list_venues limit (Some q) d = (Ok (JList (venue_json <$> rows)), d) ∧
           ∀ v, v ∈ venues d → contains_ignoring_case q (Venue.venue_name v) →
                v ∈ rows).
Proof.
  intros Hq Hnul Hl.
  destruct (where_name_like_contains q Hq Hnul) as (like & Hsome & Hlike).
  unfold list_players, list_venues. rewrite Hsome, bool_decide_eq_true_2 by done.
  split; intros Hfit; (eexists; split; [reflexivity |]).
  - intros p Hp Hc. unfold sql_limit, order_by_desc. rewrite take_ge.
    + rewrite stable_sort_Permutation. apply list_elem_of_filter.
      split; [| done]. apply Is_true_true. by apply Hlike.
    + rewrite stable_sort_Permutation.
      pose proof (length_filter (λ p, like (Player.display_name p)) (players d)). lia.
  - intros v Hv Hc. unfold sql_limit, order_by_desc. rewrite take_ge.
    + rewrite stable_sort_Permutation. apply list_elem_of_filter.
      split; [| done]. apply Is_true_true. by apply Hlike.
    + rewrite stable_sort_Permutation.
      pose proof (length_filter (λ v, like (Venue.venue_name v)) (venues d)). lia.
Qed.

Lemma wildcard_query_keeps_matches_witness :
  no_escape "c_rd" ∧ no_nul "c_rd" ∧ 1 ≤ default 50 None ≤ 500 ∧
  Z.of_nat (length (venues scenario_db)) ≤ default 50 None ∧
  ∃ rows, list_venues None (Some "c_rd") scenario_db
          = (Ok (JList (venue_json <$> rows)), scenario_db) ∧
          ∀ v, v ∈ venues scenario_db →
               contains_ignoring_case "c_rd" (Venue.venue_name v) → v ∈ rows.
Proof.
  assert (Hq : no_escape "c_rd") by (simpl; repeat split; discriminate).
  assert (Hl : 1 ≤ default 50 None ≤ 500) by (simpl; lia).
  assert (Hfit : Z.of_nat (length (venues scenario_db)) ≤ default 50 None)
    by (vm_compute; discriminate).
  exact (conj Hq (conj eq_refl (conj Hl (conj Hfit
           (proj2 (wildcard_query_keeps_matches scenario_db None "c_rd" Hq eq_refl Hl)
              Hfit))))).
Defined.

(** ** The leaderboard *)

Lemma by_asc_total {A : Type} (k : A → Z) : Total (by_asc k).
Proof. intros x y. unfold by_asc. lia. Qed.

(** X6: the leaderboard of [game_results] is in ascending order of
    [finish_rank], and every entry shows the rank, points and knockouts of
    a result row of that game, the display name of its player, and the
    display name of the player who eliminated them when a player has the
    key the row names, null when none has. *)
Theorem game_results_ranked (d : db) (game_id : Z) :
  ∃ rows : list leaderboard_row,
    game_results game_id d
    = (Ok (JList ((λ row : leaderboard_row,
                     JObj [("finish_rank", JInt row.1.1.1.1);
                           ("player", JStr row.1.1.1.2);
                           ("points", JInt row.1.1.2);
                           ("kos", JInt row.1.2);
                           ("eliminated_by", from_option JStr JNull row.2)])
                    <$> rows)), d) ∧
    Sorted (by_asc (λ row : leaderboard_row, row.1.1.1.1)) rows ∧
    ∀ row, row ∈ rows →
      ∃ r p,
        r ∈ results d ∧ Result.game_id r = game_id ∧
        p ∈ players d ∧ Player.player_id p = Result.player_id r ∧
        row.1 = (Result.finish_rank r, Player.display_name p, Result.points r,
                 Result.kos r) ∧
        match row.2 with
        | Some name =>
            ∃ e, e ∈ players d ∧
                 Some (Player.player_id e) = Result.eliminated_by_player_id r ∧
                 Player.display_name e = name
        | None =>
            ∀ e, e ∈ players d →
                 Some (Player.player_id e) ≠ Result.eliminated_by_player_id r
        end.
Proof.
  exists (select_leaderboard game_id d). split.
  { unfold game_results. do 3 f_equal. apply list_fmap_ext.
    by intros _ [[[[rank player] points] kos] [name |]] _. }
  pose proof (by_asc_total (λ row : leaderboard_row, row.1.1.1.1)).
  split; [by apply Sorted_stable_sort |].
  intros row. unfold select_leaderboard, order_by_asc.
  rewrite stable_sort_Permutation.
  intros (r & (p & (eb & Hrow & Heb)%list_elem_of_bind & Hp)%list_elem_of_bind
            & Hr)%list_elem_of_bind.
  apply list_elem_of_singleton in Hrow as ->.
  apply list_elem_of_filter in Hr as [Hgid Hr].
  apply list_elem_of_filter in Hp as [Hpid Hp].
  exists r, p. split_and!; try done. simpl.
  unfold left_join in Heb.
  destruct (filter _ (players d)) as [|e es] eqn:Hf.
  - apply list_elem_of_singleton in Heb as ->. simpl. intros e He Heq.
    assert (e ∈ filter (λ eb, Some (Player.player_id eb)
                              = Result.eliminated_by_player_id r) (players d))
      as Hin by by apply list_elem_of_filter.
    rewrite Hf in Hin. by apply not_elem_of_nil in Hin.
  - apply list_elem_of_fmap in Heb as (e' & -> & He'). simpl.
    rewrite <- Hf in He'. apply list_elem_of_filter in He' as [? ?]. by exists e'.
Qed.

(** X7: in every state the service reaches, [get_game] finds each game
    that exists: it answers 200 with the fields of a game of that id, the
    venue the game refers to, and the very leaderboard [game_results]
    returns. *)
Theorem get_game_found (d : db) (game_id : Z) :
  reachable d → game_exists game_id d →
  ∃ g v board,
    g ∈ games d ∧ Game.game_id g = game_id ∧
    v ∈ venues d ∧ Venue.venue_id v = Game.venue_id g ∧
    game_results game_id d = (Ok (JList board), d) ∧
    get_game game_id d
    = (Ok (JObj [("game_id", JInt game_id);
                 ("game_title", JStr (Game.game_title g));
                 ("start_time", isoformat_or_none (Game.start_time g));
                 ("status", JStr (Game.status g));
                 ("venue", JObj [("venue_id", JInt (Venue.venue_id v));
                                 ("venue_name", JStr (Venue.venue_name v))]);
                 ("results", JList board)]), d).
Proof.
  intros [_ _ Hgames]%reachable_schema_ok (g & -> & Hg)%list_elem_of_fmap.
  rewrite Forall_forall in Hgames.
  pose proof (Hgames g Hg) as Hvenue. unfold venue_exists in Hvenue.
  apply list_elem_of_fmap in Hvenue as (v & Hid & Hv).
  assert (Hrow : (g, v) ∈ games_join_venues d).
  { unfold games_join_venues. apply list_elem_of_bind. exists g. split; [| done].
    apply list_elem_of_bind. exists v. split; [by left |].
    by apply list_elem_of_filter. }
  destruct (fetchone_filter_Some
              (λ row : Game.row * Venue.row, Game.game_id (fst row) = Game.game_id g)
              (games_join_venues d) (g, v) Hrow eq_refl)
    as ([g' v'] & Hfetch & Hrow' & Hid').
  apply games_join_venues_row in Hrow' as (Hg' & Hv' & Hvid). simpl in *.
  exists g', v', (leaderboard_entry <$> select_leaderboard (Game.game_id g) d).
  split_and!; try done.
  unfold get_game. rewrite Hfetch. by rewrite Hid'.
Qed.

Lemma get_game_found_witness :
  reachable scenario_db ∧ game_exists 1 scenario_db ∧
  ∃ g v board,
    g ∈ games scenario_db ∧ v ∈ venues scenario_db ∧
    game_results 1 scenario_db = (Ok (JList board), scenario_db) ∧
    get_game 1 scenario_db
    = (Ok (JObj [("game_id", JInt 1);
                 ("game_title", JStr (Game.game_title g));
                 ("start_time", isoformat_or_none (Game.start_time g));
                 ("status", JStr (Game.status g));
                 ("venue", JObj [("venue_id", JInt (Venue.venue_id v));
                                 ("venue_name", JStr (Venue.venue_name v))]);
                 ("results", JList board)]), scenario_db).
Proof.
  assert (Hg : game_exists 1 scenario_db) by compute_done.
  refine (conj scenario_reachable (conj Hg _)).
  destruct (get_game_found scenario_db 1 scenario_reachable Hg)
    as (g & v & board & Hg' & _ & Hv & _ & Hboard & Hout).
  exact (ex_intro _ g (ex_intro _ v (ex_intro _ board
           (conj Hg' (conj Hv (conj Hboard Hout)))))).
Defined.

(** ** More on the results loop *)

Lemma insert_results_app game_id rs1 rs2 d :
  insert_results game_id (rs1 ++ rs2) d
  = match insert_results game_id rs1 d with
    | (Some _, d') => insert_results game_id rs2 d'
    | (None, d') => (None, d')
    end.
Proof.
  revert d. induction rs1 as [|r rs1 IH]; intros d; simpl; [done |].
  by destruct (upsert_result _ d).
Qed.

Lemma insert_results_state game_id rs d :
  ∃ rows, snd (insert_results game_id rs d) = with_results d rows.
Proof.
  revert d. induction rs as [|r rs IH]; intros d; simpl.
  - exists (results d). by destruct d.
  - unfold upsert_result. case_decide.
    + destruct (IH (with_results d (upsert_rows (result_values game_id r) (results d))))
        as [rows ->]. by exists rows.
    + exists (results d). by destruct d.
Qed.

Lemma add_results_state game_id rs d :
  ∃ rows, snd (add_results game_id rs d) = with_results d rows.
Proof.
  unfold add_results. destruct (fetchone _).
  - destruct (insert_results_state game_id rs d) as [rows Hrows].
    exists rows. by destruct (insert_results game_id rs d) as [[[] |] d'].
  - exists (results d). by destruct d.
Qed.

(** X8: a row that names a player who does not exist stops the call with
    a server error; the rows before it stay written, exactly as a call with
    those rows alone leaves them, and the rows after it are not applied. *)
Theorem add_results_stops_at_failure (d : db) (game_id : Z)
    (rs1 : list ResultCreate.t) (r : ResultCreate.t) (rs2 : list ResultCreate.t) :
  game_exists game_id d → Forall (λ r, players_exist r d) rs1 → ¬ players_exist r d →
  add_results game_id (rs1 ++ r :: rs2) d
  = (InternalServerError, snd (add_results game_id rs1 d)).
Proof.
  intros Hg Hrs1 Hr. rewrite (add_results_accepted game_id rs1 d) by done.
  unfold add_results. destruct (game_exists_fetchone game_id d Hg) as [g ->].
  rewrite insert_results_app, insert_results_accepted by done.
  simpl. unfold upsert_result. rewrite decide_False; [done |].
  intros (_ & Hp & He). apply Hr. by split.
Qed.

Lemma add_results_stops_at_failure_witness :
  let r1 := {| ResultCreate.finish_rank := 5; ResultCreate.player_id := 1;
               ResultCreate.points := 1; ResultCreate.kos := 0;
               ResultCreate.eliminated_by_player_id := None |} in
  let r2 := {| ResultCreate.finish_rank := 6; ResultCreate.player_id := 2;
               ResultCreate.points := 0; ResultCreate.kos := 0;
               ResultCreate.eliminated_by_player_id := Some 9 |} in
  game_exists 1 scenario_db ∧ Forall (λ r, players_exist r scenario_db) [r1] ∧
  ¬ players_exist r2 scenario_db ∧
  add_results 1 [r1; r2; r1] scenario_db
  = (InternalServerError, snd (add_results 1 [r1] scenario_db)).
Proof.
  intros r1 r2.
  assert (Hg : game_exists 1 scenario_db) by compute_done.
  assert (H1 : Forall (λ r, players_exist r scenario_db) [r1]) by compute_done.
  assert (H2 : ¬ players_exist r2 scenario_db) by compute_done.
  exact (conj Hg (conj H1 (conj H2
           (add_results_stops_at_failure scenario_db 1 [r1] r2 [r1] Hg H1 H2)))).
Defined.

Lemma insert_results_other game_id rs d g p :
  g ≠ game_id ∨ p ∉ ResultCreate.player_id <$> rs →
  results_of g p (snd (insert_results game_id rs d)) = results_of g p d.
Proof.
  revert d. induction rs as [|r rs IH]; intros d Hk; simpl; [done |].
  unfold upsert_result. case_decide; [| done].
  rewrite IH.
  - unfold results_of. simpl. apply upsert_rows_other.
    unfold result_key. simpl. intros [= -> ->].
    destruct Hk as [? | Hp]; [done |]. apply Hp. rewrite fmap_cons. left.
  - destruct Hk as [? | Hp]; [by left | right].
    intros Hin. apply Hp. rewrite fmap_cons. by right.
Qed.

(** X9: what [add_results] never touches, whether it succeeds or fails:
    the venues, players and games, and the result rows of every other game
    and of every player the call does not name. *)
Theorem add_results_frame (d : db) (game_id : Z) (rs : list ResultCreate.t) :
  let d' := snd (add_results game_id rs d) in
  venues d' = venues d ∧ players d' = players d ∧ games d' = games d ∧
  ∀ g p, g ≠ game_id ∨ p ∉ ResultCreate.player_id <$> rs →
         results_of g p d' = results_of g p d.
Proof.
  intros d'. destruct (add_results_state game_id rs d) as [rows Hrows].
  subst d'. rewrite Hrows. split_and!; try done.
  intros g p Hk. rewrite <- Hrows. unfold add_results.
  destruct (fetchone _); [| done].
  pose proof (insert_results_other game_id rs d g p Hk) as Hother.
  by destruct (insert_results game_id rs d) as [[[] |] d''].
Qed.

(** *** Submitting a batch again *)

Lemma conflict_exists new rows :
  Exists (conflicts new) rows ↔ result_key new ∈ result_key <$> rows.
Proof.
  split.
  - intros (old & Hold & Hc)%Exists_exists. apply conflicts_key in Hc.
    rewrite <- Hc. by apply list_elem_of_fmap_2.
  - intros (old & Hkey & Hold)%list_elem_of_fmap. apply Exists_exists.
    exists old. split; [done |]. by apply conflicts_key.
Qed.

Lemma upsert_all_key game_id rs rows k :
  NoDup (result_key <$> rows) →
  filter (λ r, result_key r = k) (upsert_all game_id rs rows)
  = from_option (λ r, [result_values game_id r])
      (filter (λ r, result_key r = k) rows)
      (last (filter (λ r, (game_id, ResultCreate.player_id r) = k) rs)).
Proof.
  revert rows. induction rs as [|r rs IH]; intros rows Hnd; [done |].
  change (upsert_all game_id (r :: rs) rows)
    with (upsert_all game_id rs (upsert_rows (result_values game_id r) rows)).
  rewrite IH by by apply upsert_rows_NoDup.
  destruct (decide ((game_id, ResultCreate.player_id r) = k)) as [Hk | Hk].
  - rewrite (filter_cons_True _ r) by done.
    destruct (filter _ rs) as [|r' rs'] eqn:Hrs.
    + simpl. rewrite <- Hk.
      by apply (upsert_rows_same (result_values game_id r)).
    + assert (is_Some (last (r' :: rs'))) as [x Hx] by by apply last_is_Some.
      change (last (r :: r' :: rs')) with (last (r' :: rs')). by rewrite Hx.
  - rewrite (filter_cons_False _ r) by done.
    destruct (last (filter _ rs)); [done |]. simpl.
    apply upsert_rows_other. unfold result_key. simpl. congruence.
Qed.

Lemma upsert_all_keys_present game_id rs rows :
  (∀ r, r ∈ rs → (game_id, ResultCreate.player_id r) ∈ result_key <$> rows) →
  result_key <$> upsert_all game_id rs rows = result_key <$> rows.
Proof.
  revert rows. induction rs as [|r rs IH]; intros rows Hin; [done |].
  change (upsert_all game_id (r :: rs) rows)
    with (upsert_all game_id rs (upsert_rows (result_values game_id r) rows)).
  assert (Hkeys : result_key <$> upsert_rows (result_values game_id r) rows
                  = result_key <$> rows).
  { rewrite upsert_rows_keys, decide_True; [done |].
    apply conflict_exists. apply Hin. left. }
  rewrite IH; [done |]. intros r' Hr'. rewrite Hkeys. apply Hin. by right.
Qed.

(** Two tables with the same keys in the same order and the same rows
    under every key are the same table. *)
Lemma rows_eq_by_key (l1 l2 : list Result.row) :
  result_key <$> l1 = result_key <$> l2 →
  (∀ k, filter (λ r, result_key r = k) l1 = filter (λ r, result_key r = k) l2) →
  l1 = l2.
Proof.
  revert l2. induction l1 as [|x l1 IH]; intros [|y l2] Hkeys Hrows; try done.
  rewrite !fmap_cons in Hkeys.
  assert (Hk : result_key x = result_key y) by congruence.
  assert (Htail : result_key <$> l1 = result_key <$> l2) by congruence.
  assert (x = y) as ->.
  { specialize (Hrows (result_key x)).
    rewrite (filter_cons_True _ x) in Hrows by done.
    rewrite (filter_cons_True _ y) in Hrows by congruence. congruence. }
  f_equal. apply IH; [done |]. intros k. specialize (Hrows k).
  destruct (decide (result_key y = k)).
  - rewrite !filter_cons_True in Hrows by done. congruence.
  - by rewrite !filter_cons_False in Hrows by done.
Qed.

Lemma upsert_all_again game_id rs rows :
  NoDup (result_key <$> rows) →
  upsert_all game_id rs (upsert_all game_id rs rows) = upsert_all game_id rs rows.
Proof.
  intros Hnd.
  pose proof (upsert_all_NoDup game_id rs rows Hnd) as Hnd1.
  apply rows_eq_by_key.
  - apply upsert_all_keys_present. intros r Hr.
    pose proof (upsert_all_key game_id rs rows
                  (game_id, ResultCreate.player_id r) Hnd) as Hrow.
    assert (r ∈ filter (λ r', (game_id, ResultCreate.player_id r')
                               = (game_id, ResultCreate.player_id r)) rs) as Hin
      by by apply list_elem_of_filter.
    destruct (last _) as [r' |] eqn:Hlast.
    + simpl in Hrow.
      assert (result_values game_id r' ∈ upsert_all game_id rs rows) as Hin'.
      { eapply (proj1 (list_elem_of_filter _ _ _)). rewrite Hrow. left. }
      apply last_Some_elem_of, list_elem_of_filter in Hlast as [Hkey _].
      rewrite <- Hkey. by apply (list_elem_of_fmap_2 result_key) in Hin'.
    + apply last_None in Hlast. rewrite Hlast in Hin.
      by apply not_elem_of_nil in Hin.
  - intros k. rewrite (upsert_all_key game_id rs (upsert_all game_id rs rows)) by done.
    pose proof (upsert_all_key game_id rs rows k Hnd) as Hrow.
    by destruct (last _).
Qed.

(** X10: [add_results] is idempotent: when the rows name players that
    exist, submitting the same batch a second time gives the same response
    and leaves the database as the first call left it, also when the batch
    names a player more than once. *)
Theorem add_results_idempotent (d : db) (game_id : Z) (rs : list ResultCreate.t) :
  reachable d → game_exists game_id d → Forall (λ r, players_exist r d) rs →
  add_results game_id rs (snd (add_results game_id rs d)) = add_results game_id rs d.
Proof.
  intros [Hnd _ _]%reachable_schema_ok Hg Hrs.
  rewrite (add_results_accepted game_id rs d) by done.
  rewrite add_results_accepted; [| exact Hg | exact Hrs].
  simpl. by rewrite upsert_all_again.
Qed.

Lemma add_results_idempotent_witness :
  let r1 := {| ResultCreate.finish_rank := 1; ResultCreate.player_id := 2;
               ResultCreate.points := 10; ResultCreate.kos := 2;
               ResultCreate.eliminated_by_player_id := None |} in
  let r2 := {| ResultCreate.finish_rank := 4; ResultCreate.player_id := 2;
               ResultCreate.points := 0; ResultCreate.kos := 0;
               ResultCreate.eliminated_by_player_id := Some 1 |} in
  reachable scenario_db ∧ game_exists 1 scenario_db ∧
  Forall (λ r, players_exist r scenario_db) [r1; r2] ∧
  add_results 1 [r1; r2] (snd (add_results 1 [r1; r2] scenario_db))
  = add_results 1 [r1; r2] scenario_db.
Proof.
  intros r1 r2.
  assert (Hg : game_exists 1 scenario_db) by compute_done.
  assert (Hrs : Forall (λ r, players_exist r scenario_db) [r1; r2]) by compute_done.
  exact (conj scenario_reachable (conj Hg (conj Hrs
           (add_results_idempotent scenario_db 1 [r1; r2] scenario_reachable Hg Hrs)))).
Defined.

(** ** Invariants of the reachable states *)

Lemma fresh_key_snoc {A : Type} (f : A → Z) (l : list A) (x : A) :
  NoDup (f <$> l) → Forall (λ y, f y < f x) l →
  NoDup (f <$> l ++ [x]) ∧ Forall (λ y, f y < f x + 1) (l ++ [x]).
Proof.
  intros Hnd Hlt. split.
  - rewrite fmap_app. apply NoDup_app. split_and!; [done | | apply NoDup_singleton].
    intros k (y & -> & Hy)%list_elem_of_fmap Heq%list_elem_of_singleton.
    rewrite Forall_forall in Hlt. specialize (Hlt y Hy). simpl in Heq. lia.
  - apply Forall_app. split.
    + eapply Forall_impl; [exact Hlt |]. simpl. intros. lia.
    + apply Forall_singleton. lia.
Qed.

Lemma keys_ok_empty : keys_ok empty_db.
Proof. split; simpl; constructor. Qed.

Lemma keys_ok_with_results d rows : keys_ok d → keys_ok (with_results d rows).
Proof. by intros []. Qed.

Lemma create_game_keys_ok game d : keys_ok d → keys_ok (snd (create_game game d)).
Proof.
  intros Hd. destruct (create_game_cases game d) as [-> | (v & _ & _ & _ & ->)];
    [done |].
  destruct Hd as [? ? ? ? Hnd Hlt].
  destruct (fresh_key_snoc Game.game_id (games d)
              {| Game.game_id := games_seq d;
                 Game.game_title := GameCreate.game_title game;
                 Game.start_time := Some (GameCreate.start_time game);
                 Game.status := "scheduled";
                 Game.venue_id := Venue.venue_id v |} Hnd Hlt).
  by split.
Qed.

Lemma create_player_keys_ok now player d :
  keys_ok d → keys_ok (snd (create_player now player d)).
Proof.
  intros Hd. destruct (create_player_cases now player d) as [-> | (_ & _ & ->)];
    [done |].
  destruct Hd as [? ? Hnd Hlt ? ?].
  destruct (fresh_key_snoc Player.player_id (players d)
              {| Player.player_id := players_seq d;
                 Player.display_name := PlayerCreate.display_name player;
                 Player.avatar_url := PlayerCreate.avatar_url player;
                 Player.created_at := Some now |} Hnd Hlt).
  by split.
Qed.

Lemma create_venue_keys_ok now venue d :
  keys_ok d → keys_ok (snd (create_venue now venue d)).
Proof.
  intros Hd. destruct (create_venue_cases now venue d) as [-> | (_ & _ & ->)];
    [done |].
  destruct Hd as [Hnd Hlt ? ? ? ?].
  destruct (fresh_key_snoc Venue.venue_id (venues d)
              {| Venue.venue_id := venues_seq d;
                 Venue.venue_name := VenueCreate.venue_name venue;
                 Venue.address := VenueCreate.address venue;
                 Venue.city := VenueCreate.city venue;
                 Venue.state := VenueCreate.state venue;
                 Venue.created_at := Some now |} Hnd Hlt).
  by split.
Qed.

Lemma handle_keys_ok now req d : keys_ok d → keys_ok (snd (handle now req d)).
Proof.
  intros Hd. destruct req as [| | | | game_id rs | | | |]; simpl.
  - by rewrite list_games_state.
  - by rewrite get_game_state.
  - done.
  - by apply create_game_keys_ok.
  - destruct (add_results_state game_id rs d) as [rows ->].
    by apply keys_ok_with_results.
  - by rewrite list_players_state.
  - by apply create_player_keys_ok.
  - by rewrite list_venues_state.
  - by apply create_venue_keys_ok.
Qed.

Lemma reachable_keys_ok d : reachable d → keys_ok d.
Proof.
  intros [reqs ->]. generalize keys_ok_empty. generalize empty_db.
  induction reqs as [|[now req] reqs IH]; intros d Hd; simpl; [done |].
  by apply IH, handle_keys_ok.
Qed.

Lemma fresh_name_snoc {A : Type} (f : A → string) (l : list A) (x : A) :
  NoDup (f <$> l) → filter (λ y, f y = f x) l = [] → NoDup (f <$> l ++ [x]).
Proof.
  intros Hnd Hnone. rewrite fmap_app.
  apply NoDup_app. split_and!; [done | | apply NoDup_singleton].
  intros k (y & -> & Hy)%list_elem_of_fmap Heq%list_elem_of_singleton.
  assert (y ∈ filter (λ y, f y = f x) l) as Hin by by apply list_elem_of_filter.
  rewrite Hnone in Hin. by apply not_elem_of_nil in Hin.
Qed.

Lemma handle_names_unique now req d :
  names_unique d → names_unique (snd (handle now req d)).
Proof.
  intros [Hv Hp]. destruct req as [| | | game | game_id rs | | player | | venue]; simpl.
  - by rewrite list_games_state.
  - by rewrite get_game_state.
  - done.
  - by destruct (create_game_cases game d) as [-> | (v & _ & _ & _ & ->)].
  - by destruct (add_results_state game_id rs d) as [rows ->].
  - by rewrite list_players_state.
  - destruct (create_player_cases now player d) as [-> | (_ & Hnone & ->)]; [done |].
    split; [done |]. simpl.
    by apply (fresh_name_snoc (λ p, lower (Player.display_name p))).
  - by rewrite list_venues_state.
  - destruct (create_venue_cases now venue d) as [-> | (_ & Hnone & ->)]; [done |].
    split; [| done]. simpl.
    by apply (fresh_name_snoc (λ v, lower (Venue.venue_name v))).
Qed.

(** X11: in every state the service reaches, no two venues and no two
    players have names that are equal up to letter case. *)
Theorem reachable_names_unique (d : db) : reachable d → names_unique d.
Proof.
  intros [reqs ->].
  assert (H : names_unique empty_db) by (split; constructor).
  revert H. generalize empty_db.
  induction reqs as [|[now req] reqs IH]; intros d Hd; simpl; [done |].
  by apply IH, handle_names_unique.
Qed.

Lemma reachable_names_unique_witness : reachable scenario_db ∧ names_unique scenario_db.
Proof. exact (conj scenario_reachable (reachable_names_unique _ scenario_reachable)). Defined.

(** X12: in every state the service reaches, every game refers to a venue
    that exists, and every result row to a game and a player that exist
    and, when it names one, to an eliminating player who exists. *)
Theorem reachable_references (d : db) :
  reachable d →
  (∀ g, g ∈ games d → venue_exists (Game.venue_id g) d) ∧
  (∀ r, r ∈ results d →
        game_exists (Result.game_id r) d ∧ player_exists (Result.player_id r) d ∧
        ∀ e, Result.eliminated_by_player_id r = Some e → player_exists e d).
Proof.
  intros [_ Href Hgames]%reachable_schema_ok.
  rewrite Forall_forall in Href. rewrite Forall_forall in Hgames.
  split; [done |]. intros r Hr. destruct (Href r Hr) as (Hg & Hp & He).
  split_and!; [done.. |]. intros e Heq. by rewrite Heq in He.
Qed.

Lemma reachable_references_witness :
  reachable scenario_db ∧
  ∀ r, r ∈ results scenario_db → game_exists (Result.game_id r) scenario_db.
Proof.
  refine (conj scenario_reachable _). intros r Hr.
  exact (proj1 (proj2 (reachable_references _ scenario_reachable) r Hr)).
Defined.

(** ** One leaderboard entry per result row *)

Lemma unique_key_exactly_one {A : Type} (f : A → Z) (k : Z) (l : list A) :
  NoDup (f <$> l) → k ∈ f <$> l → ∃ x, filter (λ y, f y = k) l = [x].
Proof.
  intros Hnd (x & -> & Hx)%list_elem_of_fmap.
  pose proof (unique_key_at_most_one f (f x) l Hnd) as Hlen.
  assert (x ∈ filter (λ y, f y = f x) l) as Hin by by apply list_elem_of_filter.
  destruct (filter _ l) as [|y [|z l']]; simpl in Hlen.
  - by apply not_elem_of_nil in Hin.
  - by exists y.
  - lia.
Qed.

Lemma left_join_one {A : Type} (l : list A) :
  (length l ≤ 1)%nat → ∃ e, left_join l = [e].
Proof.
  destruct l as [|x [|y l]]; simpl; intros Hlen; [by eexists.. | lia].
Qed.

Lemma bind_singletons {A B C : Type} (f : A → list B) (g : B → C) (h : A → C)
    (l : list A) :
  (∀ x, x ∈ l → ∃ y, f x = [y] ∧ g y = h x) → g <$> (l ≫= f) = h <$> l.
Proof.
  induction l as [|x l IH]; intros Hf; [done |].
  rewrite bind_cons, fmap_app, fmap_cons.
  destruct (Hf x) as (y & -> & <-); [left |]. simpl. f_equal.
  apply IH. intros x' Hx'. apply Hf. by right.
Qed.

(** X13: in every state the service reaches, the leaderboard of a game
    has exactly one entry for each result row of the game, carrying the
    rank, points and knockouts of that row: the joins with the players
    neither drop a row nor repeat one. *)
Theorem leaderboard_one_entry_per_result (d : db) (game_id : Z) :
  reachable d →
  ∃ rows : list leaderboard_row,
    game_results game_id d = (Ok (JList (leaderboard_entry <$> rows)), d) ∧
    (λ row : leaderboard_row, (row.1.1.1.1, row.1.1.2, row.1.2)) <$> rows
    ≡ₚ (λ r, (Result.finish_rank r, Result.points r, Result.kos r))
         <$> filter (λ r, Result.game_id r = game_id) (results d).
Proof.
  intros Hd. pose proof (reachable_schema_ok d Hd) as [_ Href _].
  pose proof (reachable_keys_ok d Hd) as [_ _ Hplayers _ _ _].
  rewrite Forall_forall in Href.
  exists (select_leaderboard game_id d). split; [done |].
  unfold select_leaderboard, order_by_asc. rewrite stable_sort_Permutation.
  rewrite (bind_singletons _ _
             (λ r, (Result.finish_rank r, Result.points r, Result.kos r))); [done |].
  intros r [_ Hr]%list_elem_of_filter. destruct (Href r Hr) as (_ & Hp & _).
  destruct (unique_key_exactly_one Player.player_id (Result.player_id r) (players d))
    as [p ->]; [done.. |].
  rewrite bind_singleton.
  destruct (left_join_one
              (filter (λ eb, Some (Player.player_id eb) = Result.eliminated_by_player_id r)
                 (players d))) as [eb ->].
  - destruct (Result.eliminated_by_player_id r) as [e |].
    + rewrite (list_filter_iff _ (λ eb, Player.player_id eb = e)).
      * by apply unique_key_at_most_one.
      * intros eb. split; congruence.
    + rewrite filter_none; [simpl; lia | done].
  - rewrite bind_singleton. by eexists.
Qed.

Lemma leaderboard_one_entry_per_result_witness :
  reachable scenario_db ∧
  ∃ rows : list leaderboard_row,
    game_results 1 scenario_db
    = (Ok (JList (leaderboard_entry <$> rows)), scenario_db) ∧
    (λ row : leaderboard_row, (row.1.1.1.1, row.1.1.2, row.1.2)) <$> rows
    ≡ₚ (λ r, (Result.finish_rank r, Result.points r, Result.kos r))
         <$> filter (λ r, Result.game_id r = 1) (results scenario_db).
Proof.
  exact (conj scenario_reachable
           (leaderboard_one_entry_per_result scenario_db 1 scenario_reachable)).
Defined.

(** ** Creating and reading back *)

Lemma venue_text_ok_insert venue :
  venue_text_ok venue →
  has_nul (VenueCreate.venue_name venue) = false ∧
  from_option has_nul false (VenueCreate.address venue)
  || has_nul (VenueCreate.city venue) || has_nul (VenueCreate.state venue) = false.
Proof.
  unfold venue_text_ok, no_nul. intros (Hn & Ha & Hc & Hs). split; [done |].
  rewrite Hc, Hs. by destruct (VenueCreate.address venue); simpl in *; rewrite ?Ha.
Qed.

Lemma player_text_ok_insert player :
  player_text_ok player →
  has_nul (PlayerCreate.display_name player) = false ∧
  from_option has_nul false (PlayerCreate.avatar_url player) = false.
Proof.
  unfold player_text_ok, no_nul. intros (Hn & Ha). split; [done |].
  by destruct (PlayerCreate.avatar_url player).
Qed.

Lemma create_venue_accepted now venue d :
  venue_text_ok venue →
  (∀ v, v ∈ venues d →
        ¬ same_ignoring_case (VenueCreate.venue_name venue) (Venue.venue_name v)) →
  snd (create_venue now venue d)
  = {| venues := venues d ++ [{| Venue.venue_id := venues_seq d;
                                 Venue.venue_name := VenueCreate.venue_name venue;
                                 Venue.address := VenueCreate.address venue;
                                 Venue.city := VenueCreate.city venue;
                                 Venue.state := VenueCreate.state venue;
                                 Venue.created_at := Some now |}];
       players := players d; games := games d; results := results d;
       venues_seq := venues_seq d + 1; players_seq := players_seq d;
       games_seq := games_seq d |}.
Proof.
  intros [Hname Hrest]%venue_text_ok_insert Hnew. unfold create_venue.
  rewrite Hname, fetchone_filter_None, Hrest; [done |].
  intros v Hv Hsame. apply (Hnew v Hv). by symmetry.
Qed.

(** X14: a creation whose text the driver accepts and whose name no row
    has up to letter case is accepted: the venue, respectively the player,
    is appended with the next key of its sequence, the submitted fields and
    the time of the insert, the response shows that row, and nothing else
    changes.  A creation answers 200 only for such a request. *)
Theorem create_new_name (d : db) (now : datetime) :
  (∀ venue,
     let row := {| Venue.venue_id := venues_seq d;
                   Venue.venue_name := VenueCreate.venue_name venue;
                   Venue.address := VenueCreate.address venue;
                   Venue.city := VenueCreate.city venue;
                   Venue.state := VenueCreate.state venue;
                   Venue.created_at := Some now |} in
     (venue_text_ok venue →
      (∀ v, v ∈ venues d →
            ¬ same_ignoring_case (VenueCreate.venue_name venue) (Venue.venue_name v)) →
      create_venue now venue d
      = (Ok (JObj [("venue_id", JInt (venues_seq d));
                   ("venue_name", JStr (VenueCreate.venue_name venue));
                   ("address", from_option JStr JNull (VenueCreate.address venue));
                   ("city", JStr (VenueCreate.city venue));
                   ("state", JStr (VenueCreate.state venue));
                   ("created_at", JDateTime now)]),
         {| venues := venues d ++ [row]; players := players d; games := games d;
            results := results d; venues_seq := venues_seq d + 1;
            players_seq := players_seq d; games_seq := games_seq d |})) ∧
     (∀ body, fst (create_venue now venue d) = Ok body →
              venue_text_ok venue ∧
              ∀ v, v ∈ venues d →
                   ¬ same_ignoring_case (VenueCreate.venue_name venue)
                       (Venue.venue_name v))) ∧
  (∀ player,
     let row := {| Player.player_id := players_seq d;
                   Player.display_name := PlayerCreate.display_name player;
                   Player.avatar_url := PlayerCreate.avatar_url player;
                   Player.created_at := Some now |} in
     (player_text_ok player →
      (∀ p, p ∈ players d →
            ¬ same_ignoring_case (PlayerCreate.display_name player)
                (Player.display_name p)) →
      create_player now player d
      = (Ok (JObj [("player_id", JInt (players_seq d));
                   ("display_name", JStr (PlayerCreate.display_name player));
                   ("avatar_url", from_option JStr JNull (PlayerCreate.avatar_url player));
                   ("created_at", JDateTime now)]),
         {| venues := venues d; players := players d ++ [row]; games := games d;
            results := results d; venues_seq := venues_seq d;
            players_seq := players_seq d + 1; games_seq := games_seq d |})) ∧
     (∀ body, fst (create_player now player d) = Ok body →
              player_text_ok player ∧
              ∀ p, p ∈ players d →
                   ¬ same_ignoring_case (PlayerCreate.display_name player)
                       (Player.display_name p))).
Proof.
  split.
  - intros venue row. split.
    + intros [Hname Hrest]%venue_text_ok_insert Hnew. unfold create_venue.
      rewrite Hname, fetchone_filter_None, Hrest.
      * unfold venue_json. simpl. by destruct (VenueCreate.address venue).
      * intros v Hv Hsame. apply (Hnew v Hv). by symmetry.
    + intros body. unfold create_venue.
      destruct (has_nul _) eqn:Hname; [done |].
      destruct (fetchone _) eqn:Hfetch; [done |].
      destruct (_ || _) eqn:Hrest; [done |]. intros _.
      apply orb_false_iff in Hrest as [[Ha Hc]%orb_false_iff Hs]. split.
      * unfold venue_text_ok, no_nul. split_and!; try done.
        by destruct (VenueCreate.address venue).
      * intros v Hv Hcase. apply head_None in Hfetch.
        assert (v ∈ filter (λ v, lower (Venue.venue_name v)
                                 = lower (VenueCreate.venue_name venue)) (venues d))
          as Hin by (apply list_elem_of_filter; split; [by symmetry | done]).
        rewrite Hfetch in Hin. by apply not_elem_of_nil in Hin.
  - intros player row. split.
    + intros [Hname Hrest]%player_text_ok_insert Hnew. unfold create_player.
      rewrite Hname, fetchone_filter_None, Hrest.
      * unfold player_json. simpl. by destruct (PlayerCreate.avatar_url player).
      * intros p Hp Hsame. apply (Hnew p Hp). by symmetry.
    + intros body. unfold create_player.
      destruct (has_nul _) eqn:Hname; [done |].
      destruct (fetchone _) eqn:Hfetch; [done |].
      destruct (from_option _ _ _) eqn:Hrest; [done |]. intros _. split.
      * unfold player_text_ok, no_nul. split; [done |].
        by destruct (PlayerCreate.avatar_url player).
      * intros p Hp Hcase. apply head_None in Hfetch.
        assert (p ∈ filter (λ p, lower (Player.display_name p)
                                 = lower (PlayerCreate.display_name player)) (players d))
          as Hin by (apply list_elem_of_filter; split; [by symmetry | done]).
        rewrite Hfetch in Hin. by apply not_elem_of_nil in Hin.
Qed.

Lemma create_new_name_witness :
  let venue := {| VenueCreate.venue_name := "Spot"; VenueCreate.address := Some "1 Main St";
                  VenueCreate.city := "Atlanta"; VenueCreate.state := "GA" |} in
  venue_text_ok venue ∧
  (∀ v, v ∈ venues scenario_db → ¬ same_ignoring_case "Spot" (Venue.venue_name v)) ∧
  fst (create_venue 20 venue scenario_db)
  = Ok (JObj [("venue_id", JInt 3); ("venue_name", JStr "Spot");
              ("address", JStr "1 Main St"); ("city", JStr "Atlanta");
              ("state", JStr "GA"); ("created_at", JDateTime 20)]).
Proof.
  intros venue.
  assert (Htext : venue_text_ok venue) by compute_done.
  assert (Hnew : ∀ v, v ∈ venues scenario_db →
                      ¬ same_ignoring_case (VenueCreate.venue_name venue)
                          (Venue.venue_name v)).
  { intros v Hv. vm_compute in Hv.
    repeat (apply elem_of_cons in Hv as [-> | Hv]; [by vm_compute |]).
    by apply not_elem_of_nil in Hv. }
  refine (conj Htext (conj Hnew _)).
  exact (f_equal fst (proj1 (proj1 (create_new_name scenario_db 20) venue) Htext Hnew)).
Defined.

Lemma select_leaderboard_no_rows game_id d :
  (∀ r, r ∈ results d → Result.game_id r ≠ game_id) →
  select_leaderboard game_id d = [].
Proof.
  intros Hno. unfold select_leaderboard.
  rewrite (filter_none _ (results d)); [done |]. intros r Hr. by apply Hno.
Qed.

(** X15: a game just created can be read back: in a state the service
    reaches, for a title the driver accepts, [get_game] on the key that
    [create_game] returned answers 200 with the same fields and an empty
    leaderboard. *)
Theorem create_game_then_get_game (d : db) (game : GameCreate.t) :
  reachable d → venue_exists (GameCreate.venue_id game) d →
  no_nul (GameCreate.game_title game) →
  let d' := snd (create_game game d) in
  ∃ v, v ∈ venues d ∧ Venue.venue_id v = GameCreate.venue_id game ∧
    let fields :=
      [("game_id", JInt (games_seq d));
       ("game_title", JStr (GameCreate.game_title game));
       ("start_time", JDateTime (GameCreate.start_time game));
       ("status", JStr "scheduled");
       ("venue", JObj [("venue_id", JInt (GameCreate.venue_id game));
                       ("venue_name", JStr (Venue.venue_name v))])] in
    fst (create_game game d) = Ok (JObj fields) ∧
    get_game (games_seq d) d' = (Ok (JObj (fields ++ [("results", JList [])])), d').
Proof.
  intros Hd (v0 & Hid0 & Hv0)%list_elem_of_fmap Htitle d'.
  pose proof (reachable_schema_ok d Hd) as [_ Href _].
  pose proof (reachable_keys_ok d Hd) as [_ _ _ _ _ Hbelow].
  rewrite Forall_forall in Href. rewrite Forall_forall in Hbelow.
  destruct (fetchone_filter_Some
              (λ v', Venue.venue_id v' = GameCreate.venue_id game) (venues d) v0)
    as (v & Hfetch & Hv & Hid); [done.. |].
  exists v. split; [done |]. split; [done |]. cbv zeta. split.
  - unfold create_game. rewrite Hfetch, Htitle. simpl. by rewrite Hid.
  - subst d'. unfold create_game. rewrite Hfetch, Htitle. simpl.
    unfold get_game, games_join_venues. simpl.
    rewrite Hid, bind_app, filter_app, bind_singleton. simpl.
    rewrite (filter_none _ (games d ≫= _)).
    + unfold fetchone in Hfetch. destruct (filter _ (venues d)) as [|v' vs]; [done |].
      injection Hfetch as ->. rewrite bind_cons. simpl.
      rewrite filter_cons_True; [| reflexivity]. simpl.
      rewrite select_leaderboard_no_rows; [by rewrite Hid |].
      simpl. intros r Hr Hgid. destruct (Href r Hr) as [Hg _].
      apply list_elem_of_fmap in Hg as (g & Hgid' & Hg).
      specialize (Hbelow g Hg). simpl in Hbelow. lia.
    + intros row Hrow Hgid. apply (games_join_venues_row row d) in Hrow as (Hg & _).
      specialize (Hbelow (fst row) Hg). simpl in *. lia.
Qed.

Lemma create_game_then_get_game_witness :
  let game := {| GameCreate.game_title := "Friday"; GameCreate.start_time := 200;
                 GameCreate.venue_id := 2 |} in
  reachable scenario_db ∧ venue_exists 2 scenario_db ∧ no_nul "Friday" ∧
  get_game 2 (snd (create_game game scenario_db))
  = (Ok (JObj [("game_id", JInt 2); ("game_title", JStr "Friday");
               ("start_time", JDateTime 200); ("status", JStr "scheduled");
               ("venue", JObj [("venue_id", JInt 2);
                               ("venue_name", JStr "Atlanta Card Club")]);
               ("results", JList [])]),
     snd (create_game game scenario_db)).
Proof.
  intros game.
  assert (Hv : venue_exists (GameCreate.venue_id game) scenario_db) by compute_done.
  refine (conj scenario_reachable (conj Hv (conj eq_refl _))).
  destruct (create_game_then_get_game scenario_db game scenario_reachable Hv eq_refl)
    as (v & _ & _ & _ & Hget).
  etrans; [exact Hget |]. by vm_compute.
Defined.

(** X16: a venue just created can host a game: in a state the service
    reaches, for text the driver accepts and a venue name no row has up to
    letter case, [create_game] with the key of the new venue answers 200
    with the status ["scheduled"] and the name the venue was created
    with. *)
Theorem create_venue_then_game (d : db) (now : datetime) (venue : VenueCreate.t)
    (game : GameCreate.t) :
  reachable d → venue_text_ok venue → no_nul (GameCreate.game_title game) →
  (∀ v, v ∈ venues d →
        ¬ same_ignoring_case (VenueCreate.venue_name venue) (Venue.venue_name v)) →
  GameCreate.venue_id game = venues_seq d →
  fst (create_game game (snd (create_venue now venue d)))
  = Ok (JObj [("game_id", JInt (games_seq d));
              ("game_title", JStr (GameCreate.game_title game));
              ("start_time", JDateTime (GameCreate.start_time game));
              ("status", JStr "scheduled");
              ("venue", JObj [("venue_id", JInt (venues_seq d));
                              ("venue_name", JStr (VenueCreate.venue_name venue))])]).
Proof.
  intros Hd Htext Htitle Hnew Hid.
  pose proof (reachable_keys_ok d Hd) as [_ Hbelow _ _ _ _].
  rewrite Forall_forall in Hbelow.
  rewrite (create_venue_accepted now venue d Htext Hnew).
  unfold create_game. simpl. rewrite Hid, filter_app.
  rewrite (filter_none _ (venues d)).
  - rewrite filter_cons_True; [| reflexivity]. simpl. by rewrite Htitle.
  - intros v Hv Hvid. specialize (Hbelow v Hv). simpl in Hbelow. lia.
Qed.

Lemma create_venue_then_game_witness :
  let venue := {| VenueCreate.venue_name := "Spot"; VenueCreate.address := None;
                  VenueCreate.city := "Atlanta"; VenueCreate.state := "GA" |} in
  let game := {| GameCreate.game_title := "Friday"; GameCreate.start_time := 200;
                 GameCreate.venue_id := 3 |} in
  reachable scenario_db ∧ venue_text_ok venue ∧ no_nul "Friday" ∧
  (∀ v, v ∈ venues scenario_db → ¬ same_ignoring_case "Spot" (Venue.venue_name v)) ∧
  fst (create_game game (snd (create_venue 20 venue scenario_db)))
  = Ok (JObj [("game_id", JInt 2); ("game_title", JStr "Friday");
              ("start_time", JDateTime 200); ("status", JStr "scheduled");
              ("venue", JObj [("venue_id", JInt 3); ("venue_name", JStr "Spot")])]).
Proof.
  intros venue game.
  assert (Htext : venue_text_ok venue) by compute_done.
  assert (Hnew : ∀ v, v ∈ venues scenario_db →
                      ¬ same_ignoring_case (VenueCreate.venue_name venue)
                          (Venue.venue_name v)).
  { intros v Hv. vm_compute in Hv.
    repeat (apply elem_of_cons in Hv as [-> | Hv]; [by vm_compute |]).
    by apply not_elem_of_nil in Hv. }
  refine (conj scenario_reachable (conj Htext (conj eq_refl (conj Hnew _)))).
  exact (create_venue_then_game scenario_db 20 venue game scenario_reachable
           Htext eq_refl Hnew eq_refl).
Defined.

(** ** The allowed origins *)

Lemma lstrip_head s c t : lstrip s = String c t → isspace c = false.
Proof.
  induction s as [|c' s IH]; simpl; [done |].
  destruct (isspace c') eqn:Hc'; [done |]. by intros [= <- _].
Qed.

Lemma rstrip_head c s c' t : rstrip (String c s) = String c' t → c' = c.
Proof. simpl. destruct (rstrip s); [destruct (isspace c) |]; by intros [= ->]. Qed.

Lemma rstrip_idem s : rstrip (rstrip s) = rstrip s.
Proof.
  induction s as [|c s IH]; [done |]. simpl.
  destruct (rstrip s) as [|c' t] eqn:Hs.
  - destruct (isspace c) eqn:Hc; [done |]. simpl. by rewrite Hc.
  - change (rstrip (String c (String c' t)))
      with (match rstrip (String c' t) with
            | EmptyString => if isspace c then EmptyString else String c EmptyString
            | String c'' t' => String c (String c'' t')
            end).
    by rewrite IH.
Qed.

Lemma strip_idem s : strip (strip s) = strip s.
Proof.
  unfold strip. destruct (rstrip (lstrip s)) as [|c u] eqn:Hr; [done |].
  destruct (lstrip s) as [|c0 t] eqn:Hl; [done |].
  pose proof (lstrip_head _ _ _ Hl) as Hc0.
  pose proof (rstrip_head _ _ _ _ Hr) as ->.
  simpl lstrip. rewrite Hc0. rewrite <- Hr. apply rstrip_idem.
Qed.

Lemma lstrip_has_char c s : has_char c s = false → has_char c (lstrip s) = false.
Proof.
  induction s as [|c' s IH]; simpl; [done |].
  intros [Hc Hs]%orb_false_iff. destruct (isspace c'); [auto |]. simpl. by rewrite Hc.
Qed.

Lemma rstrip_has_char c s : has_char c s = false → has_char c (rstrip s) = false.
Proof.
  induction s as [|c' s IH]; simpl; [done |].
  intros [Hc Hs]%orb_false_iff. specialize (IH Hs).
  destruct (rstrip s) as [|c'' t].
  - destruct (isspace c'); [done |]. simpl. by rewrite Hc.
  - change (has_char c (String c' (String c'' t)))
      with (bool_decide (c' = c) || has_char c (String c'' t)).
    by rewrite Hc, IH.
Qed.

Lemma split_pieces sep s : Forall (λ p, has_char sep p = false) (split sep s).
Proof.
  induction s as [|c s IH]; simpl; [by repeat constructor |].
  case_decide as Hc; [by constructor |].
  destruct (split sep s) as [|p ps].
  { apply Forall_singleton. simpl. by rewrite bool_decide_eq_false_2. }
  apply Forall_cons in IH as [Hp Hps]. constructor; [| done].
  simpl. by rewrite bool_decide_eq_false_2, Hp.
Qed.

Lemma split_whole sep p : has_char sep p = false → split sep p = [p].
Proof.
  induction p as [|c p IH]; simpl; [done |].
  intros [Hc Hp]%orb_false_iff. apply bool_decide_eq_false in Hc.
  rewrite decide_False by done. by rewrite IH.
Qed.

Lemma split_first sep p rest :
  has_char sep p = false → split sep (p +:+ String sep rest) = p :: split sep rest.
Proof.
  induction p as [|c p IH].
  - intros _. rewrite append_nil. simpl. by rewrite decide_True.
  - simpl has_char. intros [Hc Hp]%orb_false_iff. apply bool_decide_eq_false in Hc.
    rewrite append_cons. simpl. rewrite decide_False by done. by rewrite IH.
Qed.

Lemma split_join sep pieces :
  pieces ≠ [] → Forall (λ p, has_char sep p = false) pieces →
  split sep (join sep pieces) = pieces.
Proof.
  induction pieces as [|p [|q pieces] IH]; intros Hne Hall; [done | |].
  - apply Forall_cons in Hall as [Hp _]. by apply split_whole.
  - apply Forall_cons in Hall as [Hp Hall].
    change (join sep (p :: q :: pieces)) with (p +:+ String sep (join sep (q :: pieces))).
    rewrite split_first by done. by rewrite IH.
Qed.

Lemma lstrip_no_leading s : starts_with_space s = false → lstrip s = s.
Proof. destruct s as [|c s]; simpl; [done |]. by intros ->. Qed.

Lemma rstrip_no_trailing s : ends_with_space s = false → rstrip s = s.
Proof.
  induction s as [|c s IH]; [done |]. destruct s as [|c' t].
  - simpl. by intros ->.
  - intros Hend. change (ends_with_space (String c' t) = false) in Hend.
    change (rstrip (String c (String c' t)))
      with (match rstrip (String c' t) with
            | EmptyString => if isspace c then EmptyString else String c EmptyString
            | String c'' t' => String c (String c'' t')
            end).
    by rewrite IH.
Qed.

Lemma rstrip_ends s : ends_with_space (rstrip s) = false.
Proof.
  induction s as [|c s IH]; [done |]. simpl.
  destruct (rstrip s) as [|c' t].
  - by destruct (isspace c) eqn:Hc; simpl.
  - exact IH.
Qed.

Lemma strip_starts s : starts_with_space (strip s) = false.
Proof.
  unfold strip. destruct (lstrip s) as [|c t] eqn:Hl; [done |].
  pose proof (lstrip_head _ _ _ Hl) as Hc.
  destruct (rstrip (String c t)) as [|c' u] eqn:Hr; [done |].
  by rewrite (rstrip_head _ _ _ _ Hr).
Qed.

Lemma strip_blank s : all_space s = true → strip s = EmptyString.
Proof.
  unfold strip. induction s as [|c s IH]; simpl; [done |].
  intros [-> Hs]%andb_true_iff. auto.
Qed.

Lemma strip_clean o : clean_origin o → strip o = o.
Proof.
  intros (_ & Hstart & Hend & _). unfold strip.
  rewrite lstrip_no_leading by done. by apply rstrip_no_trailing.
Qed.

(** X17: whatever [FRONTEND_ORIGINS] holds, the middleware gets at least
    one origin, and every origin it gets is not empty, has no comma and
    neither starts nor ends with white space; when every entry between the
    commas is blank, the origins are the two local ones. *)
Theorem frontend_origins_clean (frontend_origins_env : string) :
  frontend_origins frontend_origins_env ≠ [] ∧
  Forall clean_origin (frontend_origins frontend_origins_env) ∧
  (Forall (λ entry, all_space entry = true) (split ","%char frontend_origins_env) →
   frontend_origins frontend_origins_env = default_origins).
Proof.
  unfold frontend_origins.
  pose proof (split_pieces ","%char frontend_origins_env) as Hpieces.
  set (entries := split ","%char frontend_origins_env) in *.
  assert (Hclean : Forall clean_origin
                     (strip <$> filter (λ origin, strip origin ≠ EmptyString) entries)).
  { apply Forall_fmap, Forall_forall. intros p [Hp Hin]%list_elem_of_filter.
    rewrite Forall_forall in Hpieces.
    split_and!; [done | apply strip_starts | apply rstrip_ends |].
    unfold strip. by apply rstrip_has_char, lstrip_has_char, Hpieces. }
  split_and!.
  - by destruct (strip <$> filter _ entries).
  - destruct (strip <$> filter _ entries); [| done].
    repeat constructor; by vm_compute.
  - intros Hblank. rewrite filter_none; [done |].
    rewrite Forall_forall in Hblank. intros p Hp Hne. by apply Hne, strip_blank, Hblank.
Qed.

Lemma frontend_origins_clean_witness :
  let env := String " " (String "," (String "160" (String "," (String "133" ""))))
  in
  Forall (λ entry, all_space entry = true) (split ","%char env) ∧
  frontend_origins env = default_origins.
Proof.
  intros env.
  assert (H : Forall (λ entry, all_space entry = true) (split ","%char env))
    by (by repeat constructor).
  exact (conj H (proj2 (proj2 (frontend_origins_clean env)) H)).
Defined.

(** X18: a list of origins written with commas between them is read back
    as it is: for origins that are not empty, hold no comma and neither
    start nor end with white space, parsing their join gives the same
    list. *)
Theorem frontend_origins_join (origins : list string) :
  origins ≠ [] → Forall clean_origin origins →
  frontend_origins (join ","%char origins) = origins.
Proof.
  intros Hne Hclean. unfold frontend_origins.
  rewrite split_join; [| done |].
  - assert (filter (λ origin, strip origin ≠ EmptyString) origins = origins) as ->.
    { clear Hne. induction Hclean as [|o l Ho _ IH]; [done |].
      rewrite filter_cons_True; [by rewrite IH |].
      rewrite (strip_clean o Ho). by destruct Ho. }
    assert (strip <$> origins = origins) as ->.
    { clear Hne. induction Hclean as [|o l Ho _ IH]; [done |].
      rewrite fmap_cons. by rewrite (strip_clean o Ho), IH. }
    by destruct origins.
  - eapply Forall_impl; [exact Hclean |]. by intros o (_ & _ & _ & ?).
Qed.

Lemma frontend_origins_join_witness :
  let origins := ["https://poker.example.com"; "http://localhost:5173"] in
  origins ≠ [] ∧ Forall clean_origin origins ∧
  frontend_origins "https://poker.example.com,http://localhost:5173" = origins.
Proof.
  intros origins.
  assert (Hne : origins ≠ []) by done.
  assert (Hclean : Forall clean_origin origins) by compute_done.
  exact (conj Hne (conj Hclean (frontend_origins_join origins Hne Hclean))).
Defined.

Lemma game_results_ranked_witness :
  ∃ rows : list leaderboard_row,
    Sorted (by_asc (λ row : leaderboard_row, row.1.1.1.1)) rows ∧
    game_results 1 scenario_db
    = (Ok (JList [JObj [("finish_rank", JInt 1); ("player", JStr "P1");
                        ("points", JInt 100); ("kos", JInt 3);
                        ("eliminated_by", JNull)];
                  JObj [("finish_rank", JInt 2); ("player", JStr "P2");
                        ("points", JInt 50); ("kos", JInt 1);
                        ("eliminated_by", JStr "P1")]]), scenario_db).
Proof.
  destruct (game_results_ranked scenario_db 1) as (rows & _ & Hsorted & _).
  exact (ex_intro _ rows (conj Hsorted eq_refl)).
Defined.

Lemma add_results_frame_witness :
  let r := {| ResultCreate.finish_rank := 3; ResultCreate.player_id := 1;
              ResultCreate.points := 7; ResultCreate.kos := 0;
              ResultCreate.eliminated_by_player_id := None |} in
  (2 ∉ ResultCreate.player_id <$> [r]) ∧
  results_of 1 2 (snd (add_results 1 [r] scenario_db)) = results_of 1 2 scenario_db.
Proof.
  intros r.
  assert (H : 2 ∉ ResultCreate.player_id <$> [r]) by compute_done.
  exact (conj H (proj2 (proj2 (proj2 (add_results_frame scenario_db 1 [r])))
                   1 2 (or_intror H))).
Defined.
